(** * gobyexample: the generics + reflection sorters and the generic List

    A shallow embedding of

    - [examples/generics/generics.go]: the comparator factories
      [NewStringSorter], [NewIntSorter] and [NewGenericSorter], the in-place
      sorters [SortByStringField], [SortByIntField], [SortByFloatField] and
      [SortWithComparator], the sorters written out for [Person] and
      [Product], [SlicesIndex], and the singly-linked [List] with [Push]
      and [AllElements];
    - [examples/range-over-iterators/range-over-iterators.go]: the same
      [List] with the iterator [All], and the iterator [genFib];
    - [examples/channel-directions/channel-directions.go]: [ping] and
      [pong].

    The sorters reach into their operands through package [reflect]; the
    part of [reflect.Value] that the source calls ([FieldByName], [Kind],
    [String], [Int], [Float]) is modelled on a tagged union of values.  A
    call that panics in Go has the explicit outcome [Panic] here.  The list
    lives in a heap of cells, so that [tail] and the [next] of the last but
    one cell are two names of one cell. *)

From Stdlib Require Import ZArith Floats.SpecFloat.
From stdpp Require Import gmap strings list sorting.

Local Open Scope string_scope.
Local Open Scope list_scope.
Local Open Scope nat_scope.
#[local] Set Warnings "-register-all".

(** * Part I: the program *)

(** ** Package reflect, as far as the sorters use it *)

(** [reflect.Kind], in the order of the Go enumeration. *)
Inductive Kind : Type :=
| Invalid | Bool
| Int | Int8 | Int16 | Int32 | Int64
| Uint | Uint8 | Uint16 | Uint32 | Uint64 | Uintptr
| Float32 | Float64 | Complex64 | Complex128
| Array | Chan | Func | Interface | Map | Pointer | Slice
| String_ | Struct | UnsafePointer.

(** [reflect.ValueError]: the method that was called and the kind of the
    receiver.  Every panic of the modelled methods carries one. *)
Record ValueError : Type := mkValueError { Method : string; ErrKind : Kind }.

(** The outcome of a Go call that may panic. *)
Inductive Result (A : Type) : Type :=
| Ok (a : A)
| Panic (e : ValueError).
Arguments Ok {A} a.
Arguments Panic {A} e.

(** Sequencing: a panic aborts what follows.  stdpp's [x ← r; k] is the
    notation for it. *)
#[global] Instance Result_ret : MRet Result := fun A a => Ok a.
#[global] Instance Result_bind : MBind Result := fun A B k r =>
  match r with
  | Ok a => k a
  | Panic e => Panic e
  end.

Inductive IntKind : Type := KInt | KInt8 | KInt16 | KInt32 | KInt64.
Inductive FloatKind : Type := KFloat32 | KFloat64.
(** Kinds whose payload none of the sorters ever reads. *)
Inductive OpaqueKind : Type :=
| KBool | KUint | KUint8 | KUint16 | KUint32 | KUint64 | KUintptr
| KComplex64 | KComplex128 | KArray | KChan | KFunc | KMap | KSlice
| KUnsafePointer.

(** A [reflect.Value].  [ty] is the result of [v.Type().String()], which
    [Value.String] prints for a value that is not a string.  A float is an
    IEEE-754 datum ([spec_float]); an integer is the [int64] that
    [Value.Int] returns.  A struct lists the fields [FieldByName] can see;
    a pointer or an interface is empty ([None], Go's [nil]) or holds a
    value. *)
Inductive Value : Type :=
| VZero
| VString (ty : string) (s : string)
| VInt (k : IntKind) (ty : string) (i : Z)
| VFloat (k : FloatKind) (ty : string) (f : spec_float)
| VPointer (ty : string) (target : option Value)
| VInterface (ty : string) (dyn : option Value)
| VStruct (ty : string) (fields : list (string * Value))
| VOpaque (k : OpaqueKind) (ty : string).

Definition kind_of_int (k : IntKind) : Kind :=
  match k with
  | KInt => Int | KInt8 => Int8 | KInt16 => Int16
  | KInt32 => Int32 | KInt64 => Int64
  end.

Definition kind_of_float (k : FloatKind) : Kind :=
  match k with KFloat32 => Float32 | KFloat64 => Float64 end.

Definition kind_of_opaque (k : OpaqueKind) : Kind :=
  match k with
  | KBool => Bool
  | KUint => Uint | KUint8 => Uint8 | KUint16 => Uint16
  | KUint32 => Uint32 | KUint64 => Uint64 | KUintptr => Uintptr
  | KComplex64 => Complex64 | KComplex128 => Complex128
  | KArray => Array | KChan => Chan | KFunc => Func | KMap => Map
  | KSlice => Slice | KUnsafePointer => UnsafePointer
  end.

Module reflect.

(** [v.Kind()]; the zero Value has kind [Invalid]. *)
Definition Kind (v : Value) : Kind :=
  match v with
  | VZero => Invalid
  | VString _ _ => String_
  | VInt k _ _ => kind_of_int k
  | VFloat k _ _ => kind_of_float k
  | VPointer _ _ => Pointer
  | VInterface _ _ => Interface
  | VStruct _ _ => Struct
  | VOpaque k _ => kind_of_opaque k
  end.

(** [v.Type().String()] *)
Definition TypeString (v : Value) : string :=
  match v with
  | VZero => ""
  | VString ty _ | VInt _ ty _ | VFloat _ ty _ | VPointer ty _
  | VInterface ty _ | VStruct ty _ | VOpaque _ ty => ty
  end.

(** [v.String()].  It never panics: a value that is not a string prints
    as ["<T Value>"], the zero Value as ["<invalid Value>"]. *)
Definition String (v : Value) : string :=
  match v with
  | VString _ s => s
  | VZero => "<invalid Value>"
  | _ => String.append "<" (String.append (TypeString v) " Value>")
  end.

(** [v.Int()]: panics unless the kind is [Int], [Int8], [Int16], [Int32]
    or [Int64]. *)
Definition Int (v : Value) : Result Z :=
  match v with
  | VInt _ _ i => Ok i
  | _ => Panic (mkValueError "reflect.Value.Int" (Kind v))
  end.

(** [v.Float()]: panics unless the kind is [Float32] or [Float64]. *)
Definition Float (v : Value) : Result spec_float :=
  match v with
  | VFloat _ _ f => Ok f
  | _ => Panic (mkValueError "reflect.Value.Float" (Kind v))
  end.

(** The field of that name among the fields of a struct, the zero Value if
    there is none. *)
Fixpoint field (fields : list (string * Value)) (name : string) : Value :=
  match fields with
  | [] => VZero
  | (n, v) :: rest => if String.eqb n name then v else field rest name
  end.

(** [v.FieldByName(name)]: panics if [v] is not a struct; returns the zero
    Value if the struct has no field of that name.  A struct is held as
    the list of its own fields: fields promoted from an embedded struct
    are not modelled, and with them the panic of [FieldByName] on a field
    promoted through a nil embedded pointer.  What is proved of a
    comparator is therefore stated on what [FieldByName] returned. *)
Definition FieldByName (v : Value) (name : string) : Result Value :=
  match v with
  | VStruct _ fields => Ok (field fields name)
  | _ => Panic (mkValueError "reflect.Value.FieldByName" (Kind v))
  end.

End reflect.

(** ** Go's [<] on strings and numbers *)

(** Comparison of two Go strings: byte by byte on the common prefix, then by
    length. *)
Fixpoint cmpstring (a b : string) : comparison :=
  match a, b with
  | EmptyString, EmptyString => Eq
  | EmptyString, String _ _ => Lt
  | String _ _, EmptyString => Gt
  | String x a', String y b' =>
      match (Ascii.N_of_ascii x ?= Ascii.N_of_ascii y)%N with
      | Eq => cmpstring a' b'
      | c => c
      end
  end.

(** [a < b] on strings. *)
Definition string_lt (a b : string) : bool :=
  match cmpstring a b with Lt => true | _ => false end.

(** [a < b] on [int64]. *)
Definition int_lt (a b : Z) : bool := (a <? b)%Z.

(** [a < b] on [float64]: false whenever an operand is NaN. *)
Definition float_lt (a b : spec_float) : bool := SFltb a b.

(** ** generics.go: the comparator factories *)

(** [type Comparator[T any] func(a, b T) bool].  The operands are handed to
    [reflect.ValueOf] at once, so [T] is represented by [Value]. *)
Definition Comparator : Type := Value -> Value -> Result bool.

Definition NewStringSorter (fieldName : string) (ascending : bool) : Comparator :=
  fun a b =>
    fieldA ← reflect.FieldByName a fieldName;
    fieldB ← reflect.FieldByName b fieldName;
    let strA := reflect.String fieldA in
    let strB := reflect.String fieldB in
    if ascending then Ok (string_lt strA strB)
    else Ok (string_lt strB strA).

Definition NewIntSorter (fieldName : string) (ascending : bool) : Comparator :=
  fun a b =>
    fieldA ← reflect.FieldByName a fieldName;
    fieldB ← reflect.FieldByName b fieldName;
    intA ← reflect.Int fieldA;
    intB ← reflect.Int fieldB;
    if ascending then Ok (int_lt intA intB)
    else Ok (int_lt intB intA).

Definition NewGenericSorter (fieldName : string) (ascending : bool) : Comparator :=
  fun a b =>
    fieldA ← reflect.FieldByName a fieldName;
    fieldB ← reflect.FieldByName b fieldName;
    match reflect.Kind fieldA with
    | String_ =>
        let strA := reflect.String fieldA in
        let strB := reflect.String fieldB in
        if ascending then Ok (string_lt strA strB)
        else Ok (string_lt strB strA)
    | Int | Int8 | Int16 | Int32 | Int64 =>
        intA ← reflect.Int fieldA;
        intB ← reflect.Int fieldB;
        if ascending then Ok (int_lt intA intB)
        else Ok (int_lt intB intA)
    | Float32 | Float64 =>
        floatA ← reflect.Float fieldA;
        floatB ← reflect.Float fieldB;
        if ascending then Ok (float_lt floatA floatB)
        else Ok (float_lt floatB floatA)
    | _ =>
        (* Unsupported field type *)
        Ok false
    end.

(** ** Package sort, as far as [sort.Slice] is concerned *)

(** How a call that works on a slice in place ended.  The slice survives a
    panic in the state the panic left it in. *)
Inductive Status : Type :=
| Done
| Panicked (e : ValueError).

Section Sort.

Context {T : Type}.

(** The [less] closure handed to [sort.Slice] reads [slice[i]] and
    [slice[j]] off the slice being sorted; it is represented by the
    function of the two elements. *)
Definition LessFunc : Type := T -> T -> Result bool.

(** Inner loop of [insertionSortLessFunc],
    [for j := i; j > a && data.Less(j, j-1); j-- { data.Swap(j, j-1) }].
    [x] is the element at index [j] and [before] holds the elements at
    indices [j-1], [j-2], ..., [a], in that order.  The result is the
    segment [a..i], again from index [i] down to [a]. *)
Fixpoint insertionSort_inner (less : LessFunc) (x : T) (before : list T)
  : list T * Status :=
  match before with
  | [] => ([x], Done)
  | y :: before' =>
      match less x y with
      | Panic e => (x :: y :: before', Panicked e)
      | Ok false => (x :: y :: before', Done)
      | Ok true =>
          let (r, st) := insertionSort_inner less x before' in
          (y :: r, st)
      end
  end.

(** Outer loop of [insertionSortLessFunc], [for i := a + 1; i < b; i++].
    [sorted] is the part of the slice left of index [i], from index [i-1]
    down to [a]; [rest] is the part from index [i] on. *)
Fixpoint insertionSort_outer (less : LessFunc) (sorted rest : list T)
  : list T * Status :=
  match rest with
  | [] => (reverse sorted, Done)
  | x :: rest' =>
      match insertionSort_inner less x sorted with
      | (sorted', Done) => insertionSort_outer less sorted' rest'
      | (sorted', Panicked e) => (reverse sorted' ++ rest', Panicked e)
      end
  end.

Definition insertionSortLessFunc (less : LessFunc) (s : list T)
  : list T * Status :=
  insertionSort_outer less [] s.

Definition maxInsertion : nat := 12.

(** [sort.Slice(x, less)]: the slice after the call and how the call ended.
    [pdqsort_func] sorts a range of at most [maxInsertion] elements by
    insertion sort and returns; what it does on a longer range ([pdqsort])
    is a parameter of the model. *)
Definition sort_Slice (pdqsort : LessFunc -> list T -> list T * Status)
    (x : list T) (less : LessFunc) : list T * Status :=
  if decide (length x <= maxInsertion) then insertionSortLessFunc less x
  else pdqsort less x.

End Sort.

(** ** generics.go: sorting in place *)

Section Sorters.

Variable pdqsort : @LessFunc Value -> list Value -> list Value * Status.

(** [SortWithComparator(slice, comparator)]: the slice after the call and
    how the call ended. *)
Definition SortWithComparator (slice : list Value) (comparator : Comparator)
  : list Value * Status :=
  sort_Slice pdqsort slice (fun si sj => comparator si sj).

(** The [error] result of the [SortBy...Field] functions; [None] is [nil]. *)
Definition error : Type := option string.

(** [SortByStringField(slice, fieldName, ascending)]: the slice after the
    call and, if the call returned, the returned [error]. *)
Definition SortByStringField (slice : list Value) (fieldName : string)
    (ascending : bool) : list Value * Result error :=
  let (slice', st) :=
    sort_Slice pdqsort slice (fun si sj =>
      valueI ← reflect.FieldByName si fieldName;
      valueJ ← reflect.FieldByName sj fieldName;
      let strI := reflect.String valueI in
      let strJ := reflect.String valueJ in
      if ascending then Ok (string_lt strI strJ)
      else Ok (string_lt strJ strI)) in
  match st with
  | Done => (slice', Ok None)
  | Panicked e => (slice', Panic e)
  end.

Definition SortByIntField (slice : list Value) (fieldName : string)
    (ascending : bool) : list Value * Result error :=
  let (slice', st) :=
    sort_Slice pdqsort slice (fun si sj =>
      valueI ← reflect.FieldByName si fieldName;
      valueJ ← reflect.FieldByName sj fieldName;
      intI ← reflect.Int valueI;
      intJ ← reflect.Int valueJ;
      if ascending then Ok (int_lt intI intJ)
      else Ok (int_lt intJ intI)) in
  match st with
  | Done => (slice', Ok None)
  | Panicked e => (slice', Panic e)
  end.

Definition SortByFloatField (slice : list Value) (fieldName : string)
    (ascending : bool) : list Value * Result error :=
  let (slice', st) :=
    sort_Slice pdqsort slice (fun si sj =>
      valueI ← reflect.FieldByName si fieldName;
      valueJ ← reflect.FieldByName sj fieldName;
      floatI ← reflect.Float valueI;
      floatJ ← reflect.Float valueJ;
      if ascending then Ok (float_lt floatI floatJ)
      else Ok (float_lt floatJ floatI)) in
  match st with
  | Done => (slice', Ok None)
  | Panicked e => (slice', Panic e)
  end.

End Sorters.

(** ** The generic singly-linked List of both example files *)

(** Cells live in a heap; a pointer is an address or [nil] ([None]). *)
Definition loc : Type := positive.

Section LinkedList.

Context {T : Type}.

(** [type element[T any] struct { next *element[T]; val T }] *)
Record element : Type := mkElement { next : option loc; val : T }.

(** [type List[T any] struct { head, tail *element[T] }] *)
Record List : Type := mkList { head : option loc; tail : option loc }.

(** The heap: the cells allocated so far, by address. *)
Local Abbreviation heap := (gmap loc element).

(** [List[T]{}], the zero value a list starts from. *)
Definition emptyList : List := mkList None None.

(** [&element[T]{val: v}]: a cell at an address not in use. *)
Definition new_element (h : heap) (v : T) : heap * loc :=
  let l := fresh (dom h) in (<[l := mkElement None v]> h, l).

(** [lst.Push(v)], on the heap and the [List] struct behind [lst].  In the
    second branch the store to [lst.tail.next] updates the cell at [t] in
    place, and [lst.tail = lst.tail.next] is the address just stored. *)
Definition Push (st : heap * List) (v : T) : heap * List :=
  let (h, lst) := st in
  match tail lst with
  | None =>
      let (h1, l) := new_element h v in
      (h1, mkList (Some l) (Some l))
  | Some t =>
      let (h1, l) := new_element h v in
      (alter (fun e => mkElement (Some l) (val e)) t h1,
       mkList (head lst) (Some l))
  end.

(** [for e := lst.head; e != nil; e = e.next { elems = append(elems, e.val) }].
    [None] when the fuel runs out. *)
Fixpoint AllElements_loop (fuel : nat) (h : heap) (e : option loc)
    (elems : list T) : option (list T) :=
  match fuel with
  | O => None
  | S fuel' =>
      match e with
      | None => Some elems
      | Some l =>
          c ← h !! l;
          AllElements_loop fuel' h (next c) (elems ++ [val c])
      end
  end.

(** [lst.AllElements()].  A walk that takes more steps than the heap has
    cells is on a cycle and never ends; it is [None]. *)
Definition AllElements (h : heap) (lst : List) : option (list T) :=
  AllElements_loop (S (size h)) h (head lst) [].

(** [iter.Seq[T]], [func(yield func(T) bool)].  The state [St] is what the
    body of the consuming loop updates; [yield] returns the new state and
    whether the loop goes on. *)
Definition Seq : Type :=
  forall St : Type, (T -> St -> St * bool) -> St -> option St.

(** [for e := lst.head; e != nil; e = e.next { if !yield(e.val) { return } }] *)
Fixpoint All_loop {St : Type} (fuel : nat) (h : heap) (e : option loc)
    (yield : T -> St -> St * bool) (s : St) : option St :=
  match fuel with
  | O => None
  | S fuel' =>
      match e with
      | None => Some s
      | Some l =>
          c ← h !! l;
          let (s', more) := yield (val c) s in
          if more then All_loop fuel' h (next c) yield s'
          else Some s'
      end
  end.

(** [lst.All()] *)
Definition All (h : heap) (lst : List) : Seq :=
  fun St yield s => All_loop (S (size h)) h (head lst) yield s.

(** [slices.Collect(seq)]: appends every value of the sequence and never
    stops it. *)
Definition Collect (seq : Seq) : option (list T) :=
  seq (list T) (fun v acc => (acc ++ [v], true)) [].

(** [for _, v := range xs { body }] over a slice, with a body of the same
    shape: what a loop over the elements of [xs] computes. *)
Fixpoint range_slice {St : Type} (xs : list T) (body : T -> St -> St * bool)
    (s : St) : St :=
  match xs with
  | [] => s
  | v :: xs' =>
      let (s', more) := body v s in
      if more then range_slice xs' body s' else s'
  end.

End LinkedList.
Arguments element T : clear implicits.
Arguments Seq T : clear implicits.
Abbreviation heap T := (gmap loc (element T)).

(** ** generics.go: [SlicesIndex] *)

Section SlicesIndex.

Context {E : Type}.
(** [==] on the [comparable] type [E].  It need not be reflexive: on floats
    [NaN == NaN] is false. *)
Variable equal : E -> E -> bool.

(** [for i := range s { if v == s[i] { return i } }; return -1], from index
    [i] on, [s] being the part of the slice not yet visited. *)
Fixpoint SlicesIndex_from (i : Z) (s : list E) (v : E) : Z :=
  match s with
  | [] => (-1)%Z
  | si :: s' =>
      if equal v si then i else SlicesIndex_from (i + 1)%Z s' v
  end.

Definition SlicesIndex (s : list E) (v : E) : Z := SlicesIndex_from 0%Z s v.

End SlicesIndex.

(** ** generics.go: the sorters written out for one type and one field *)

(** [type Person struct { Name string; Age int }] *)
Record PersonStruct : Type := mkPerson { Person_Name : string; Person_Age : Z }.

(** [type Product struct { Name string; Price float64 }] *)
Record ProductStruct : Type :=
  mkProduct { Product_Name : string; Product_Price : spec_float }.

Section TypedSorters.

Variable pdqsortPerson :
  @LessFunc PersonStruct -> list PersonStruct -> list PersonStruct * Status.
Variable pdqsortProduct :
  @LessFunc ProductStruct -> list ProductStruct -> list ProductStruct * Status.

Definition SortPersonByName (people : list PersonStruct)
  : list PersonStruct * Status :=
  sort_Slice pdqsortPerson people (fun pi pj =>
    Ok (string_lt (Person_Name pi) (Person_Name pj))).

Definition SortPersonByAge (people : list PersonStruct)
  : list PersonStruct * Status :=
  sort_Slice pdqsortPerson people (fun pi pj =>
    Ok (int_lt (Person_Age pi) (Person_Age pj))).

Definition SortProductByName (products : list ProductStruct)
  : list ProductStruct * Status :=
  sort_Slice pdqsortProduct products (fun pi pj =>
    Ok (string_lt (Product_Name pi) (Product_Name pj))).

Definition SortProductByPrice (products : list ProductStruct)
  : list ProductStruct * Status :=
  sort_Slice pdqsortProduct products (fun pi pj =>
    Ok (float_lt (Product_Price pi) (Product_Price pj))).

End TypedSorters.

(** ** range-over-iterators.go: [genFib] *)

(** Go's [int] on a 64-bit platform: a sum wraps around. *)
Definition wrap_int (z : Z) : Z := ((z + 2 ^ 63) mod 2 ^ 64 - 2 ^ 63)%Z.

Definition int_add (a b : Z) : Z := wrap_int (a + b).

(** [for { if !yield(a) { return }; a, b = b, a+b }].  The loop ends only
    when [yield] says so; [None] when it has not within [fuel] rounds. *)
Fixpoint genFib_loop {St : Type} (fuel : nat) (a b : Z)
    (yield : Z -> St -> St * bool) (s : St) : option St :=
  match fuel with
  | O => None
  | S fuel' =>
      let (s', more) := yield a s in
      if more then genFib_loop fuel' b (int_add a b) yield s'
      else Some s'
  end.

(** [genFib()], with [a, b := 1, 1]. *)
Definition genFib (fuel : nat) : Seq Z :=
  fun St yield s => genFib_loop fuel 1%Z 1%Z yield s.

(** The body of the loop of [main],
    [for n := range genFib() { if n >= 10 { break }; fmt.Println(n) }],
    with the bound as a parameter; the state is what has been printed. *)
Definition print_below (bound : Z) (n : Z) (printed : list Z)
  : list Z * bool :=
  if (bound <=? n)%Z then (printed, false) else (printed ++ [n], true).

(** ** channel-directions.go *)

(** A channel made by [make(chan string, cap)], used by one goroutine: the
    messages sent and not yet received, oldest first. *)
Record chan : Type := mkChan { chan_cap : nat; chan_buf : list string }.

(** Channels are references: the store says what each one holds. *)
Abbreviation chans := (gmap loc chan).

(** [c <- msg].  With no room in the buffer the send blocks, and with no
    other goroutine to receive, for ever: [None]. *)
Definition chan_send (σ : chans) (c : loc) (msg : string) : option chans :=
  ch ← σ !! c;
  if decide (length (chan_buf ch) < chan_cap ch)
  then Some (<[c := mkChan (chan_cap ch) (chan_buf ch ++ [msg])]> σ)
  else None.

(** [<-c].  On an empty buffer the receive blocks for ever: [None]. *)
Definition chan_recv (σ : chans) (c : loc) : option (string * chans) :=
  ch ← σ !! c;
  match chan_buf ch with
  | [] => None
  | msg :: rest => Some (msg, <[c := mkChan (chan_cap ch) rest]> σ)
  end.

(** [func ping(pings chan<- string, msg string) { pings <- msg }] *)
Definition ping (σ : chans) (pings : loc) (msg : string) : option chans :=
  chan_send σ pings msg.

(** [func pong(pings <-chan string, pongs chan<- string)
       { msg := <-pings; pongs <- msg }] *)
Definition pong (σ : chans) (pings pongs : loc) : option chans :=
  '(msg, σ1) ← chan_recv σ pings;
  chan_send σ1 pongs msg.

(** * Part II: vocabulary of the properties *)

(** ** Orders *)

(** Byte-lexicographic order on strings, as a relation: the empty string is
    below every string, a smaller first byte decides, equal first bytes
    defer to the rest. *)
Inductive bytes_le : string → string → Prop :=
| bytes_le_empty b : bytes_le EmptyString b
| bytes_le_byte x y a b :
    (Ascii.N_of_ascii x < Ascii.N_of_ascii y)%N →
    bytes_le (String x a) (String y b)
| bytes_le_rest x a b :
    bytes_le a b → bytes_le (String x a) (String x b).

(** [if ascending { return x < y }; return x > y] *)
Definition directed {K : Type} (lt : K → K → bool) (ascending : bool)
    (x y : K) : bool :=
  if ascending then lt x y else lt y x.

(** Irreflexive, asymmetric and transitive on the records that satisfy [P]. *)
Record strict_order_on (P : Value → Prop) (less : Comparator) : Prop := {
  so_irrefl : ∀ a, P a → less a a = Ok false;
  so_asym : ∀ a b, P a → P b →
    ¬ (less a b = Ok true ∧ less b a = Ok true);
  so_trans : ∀ a b c, P a → P b → P c →
    less a b = Ok true → less b c = Ok true → less a c = Ok true
}.

Section SortContract.

Context {T : Type}.
Implicit Types (less : @LessFunc T) (P : T → Prop).

(** The requirement of package sort on [Less], for the elements that
    satisfy [P]: calls return, and the order is irreflexive, asymmetric,
    transitive, and so is "neither is less". *)
Record strict_weak_order_on P less : Prop := {
  swo_returns : ∀ x y, P x → P y → ∃ b, less x y = Ok b;
  swo_irrefl : ∀ x, P x → less x x = Ok false;
  swo_asym : ∀ x y, P x → P y → less x y = Ok true → less y x = Ok false;
  swo_trans : ∀ x y z, P x → P y → P z →
    less x y = Ok true → less y z = Ok true → less x z = Ok true;
  swo_negtrans : ∀ x y z, P x → P y → P z →
    less x y = Ok false → less y z = Ok false → less x z = Ok false
}.

(** No element is less than one before it. *)
Definition ordered less (out : list T) : Prop :=
  StronglySorted (fun x y => less y x = Ok false) out.

(** [y] ties with [z]: neither is less than the other. *)
Definition ties less (z y : T) : bool :=
  match less z y, less y z with
  | Ok false, Ok false => true
  | _, _ => false
  end.

(** [out] has the elements that tie with one another in the order [s] has
    them. *)
Definition keeps_ties less P (s out : list T) : Prop :=
  ∀ z, P z → filter (λ y, ties less z y) out = filter (λ y, ties less z y) s.

(** The documented behaviour of [sort.Slice], stated of the part of it
    that works on long slices: it only swaps elements, and it sorts when
    [less] is as required. *)
Record sort_contract (pdqsort : @LessFunc T → list T → list T * Status)
  : Prop := {
  sort_permutes : ∀ less x, (pdqsort less x).1 ≡ₚ x;
  sort_orders : ∀ P less x,
    strict_weak_order_on P less → Forall P x →
    (pdqsort less x).2 = Done ∧ ordered less (pdqsort less x).1
}.

End SortContract.

(** ** Records with a well-formed field *)

(** The three kinds of field the sorters know how to order. *)
Inductive FieldClass : Type := StringField | IntField | FloatField.

(** The key of record [a] under field [F]: what the comparator reads when
    the field is there and of the expected kind. *)
Definition string_key (F : string) (a : Value) : option string :=
  match reflect.FieldByName a F with
  | Ok (VString _ s) => Some s
  | _ => None
  end.

Definition int_key (F : string) (a : Value) : option Z :=
  match reflect.FieldByName a F with
  | Ok (VInt _ _ i) => Some i
  | _ => None
  end.

Definition float_key (F : string) (a : Value) : option spec_float :=
  match reflect.FieldByName a F with
  | Ok (VFloat _ _ f) => Some f
  | _ => None
  end.

(** [a] is a struct whose field [F] holds a value of class [c]. *)
Definition has_field (c : FieldClass) (F : string) (a : Value) : Prop :=
  match c with
  | StringField => is_Some (string_key F a)
  | IntField => is_Some (int_key F a)
  | FloatField => is_Some (float_key F a)
  end.

(** [out] is [s] rearranged so that the strings under [F] ascend in
    byte-lexicographic order. *)
Definition ascending_by_string (F : string) (s out : list Value) : Prop :=
  out ≡ₚ s
  ∧ ∃ keys, string_key F <$> out = Some <$> keys
            ∧ StronglySorted bytes_le keys.

(** The kinds [NewGenericSorter] has a case for. *)
Definition supported (k : Kind) : bool :=
  match k with
  | String_ | Int | Int8 | Int16 | Int32 | Int64 | Float32 | Float64 => true
  | _ => false
  end.

(** [a] is a struct without a field [F]. *)
Definition lacks_field (F : string) (a : Value) : Prop :=
  reflect.FieldByName a F = Ok VZero.

(** [a] is a struct whose field [F] is a pointer of type [ty], nil or not. *)
Definition pointer_field (F ty : string) (a : Value) : Prop :=
  ∃ target, reflect.FieldByName a F = Ok (VPointer ty target).

(** ** Records of the examples *)

(** [Person{Name: name, Age: age}] of generics.go. *)
Definition Person (name : string) (age : Z) : Value :=
  VStruct "main.Person"
    [("Name", VString "string" name); ("Age", VInt KInt "int" age)].


(** The [Person] of the README's third challenge, with a nickname that
    "might be nil": [struct { Name string; Nickname *string }]. *)
Definition Member (name : string) (nickname : option string) : Value :=
  VStruct "main.Person"
    [("Name", VString "string" name);
     ("Nickname", VPointer "*string" (VString "string" <$> nickname))].

(** A record with a field of a kind the generic sorter has no case for:
    [struct { Name string; Active bool }]. *)
Definition Account (name : string) : Value :=
  VStruct "main.Account"
    [("Name", VString "string" name); ("Active", VOpaque KBool "bool")].

(** A record whose [Name] is a number: [struct { Name int }]. *)
Definition Device (name : Z) : Value :=
  VStruct "main.Device" [("Name", VInt KInt "int" name)].

(** ** Well-formed lists in the heap *)

Section ListShape.

Context {T : Type}.
Implicit Types (h : heap T) (lst : List) (p : option loc)
  (ls : list loc) (vs : list T).

(** The cells at [ls], in this order, are linked from [p] to [nil] and
    hold [vs]. *)
Fixpoint chain h p ls vs : Prop :=
  match ls, vs with
  | [], [] => p = None
  | l :: ls', v :: vs' =>
      p = Some l ∧ ∃ nx, h !! l = Some (mkElement nx v) ∧ chain h nx ls' vs'
  | _, _ => False
  end.

(** [lst] holds [vs]: its cells are distinct, linked from [head], and
    [tail] is the last of them. *)
Definition is_list h lst vs : Prop :=
  ∃ ls, NoDup ls ∧ chain h (head lst) ls vs ∧ tail lst = last ls.

End ListShape.

(** ** Vocabulary of the further properties *)

(** The Fibonacci numbers, [fib 1 = fib 2 = 1]. *)
Fixpoint fib (n : nat) : Z :=
  match n with
  | O => 0%Z
  | S n' =>
      match n' with
      | O => 1%Z
      | S n'' => (fib n'' + fib n')%Z
      end
  end.

(** The loop over the slice [xs] with this body ends in a [break]. *)
Fixpoint breaks {T St : Type} (xs : list T) (body : T → St → St * bool)
    (s : St) : bool :=
  match xs with
  | [] => false
  | v :: xs' =>
      let (s', more) := body v s in
      if more then breaks xs' body s' else true
  end.

(** The body of a loop that records each value it is handed and breaks
    after the [n]-th. *)
Definition take_first {T : Type} (n : nat) (v : T) (seen : list T)
  : list T * bool :=
  (seen ++ [v], S (length seen) <? n).

(** [reflect.ValueOf(p)] for a [Person] and for a [Product]. *)
Definition ValueOf_Person (p : PersonStruct) : Value :=
  Person (Person_Name p) (Person_Age p).

Definition ValueOf_Product (p : ProductStruct) : Value :=
  VStruct "main.Product"
    [("Name", VString "string" (Product_Name p));
     ("Price", VFloat KFloat64 "float64" (Product_Price p))].

(** The products of [main]: a laptop at 999.99, a mouse at 29.99 and a
    keyboard at 79.99, the prices as the [float64] nearest to them. *)
Definition Laptop : ProductStruct :=
  mkProduct "Laptop" (S754_finite false 8796005061277778 (-43)).
Definition Mouse : ProductStruct :=
  mkProduct "Mouse" (S754_finite false 8441434551552573 (-48)).
Definition Keyboard : ProductStruct :=
  mkProduct "Keyboard" (S754_finite false 5628795846771343 (-46)).

(** A float that is not NaN. *)
Definition is_number (f : spec_float) : Prop := f ≠ S754_nan.

(** The float under [F] when it is a number; the floats [float_key] reads
    that are NaN have no place in an order. *)
Definition number_key (F : string) (a : Value) : option spec_float :=
  match float_key F a with
  | Some S754_nan => None
  | k => k
  end.

(** [a] is a struct whose field [F] holds a well-formed value of class
    [c]: a string, an integer, or a float that is a number. *)
Definition well_formed (c : FieldClass) (F : string) (a : Value) : Prop :=
  match c with
  | StringField => is_Some (string_key F a)
  | IntField => is_Some (int_key F a)
  | FloatField => is_Some (number_key F a)
  end.

(** [out] is [s] rearranged so that the keys, read off in slice order,
    are related by [R] from each to every later one. *)
Definition sorted_by {T K : Type} (key : T → option K) (R : K → K → Prop)
    (s out : list T) : Prop :=
  out ≡ₚ s
  ∧ ∃ keys, key <$> out = Some <$> keys ∧ StronglySorted R keys.

(** [x <= y] on floats that are numbers: [y] is not less than [x]. *)
Definition float_le (x y : spec_float) : Prop := float_lt y x = false.

(** Pushes onto two lists that share a heap, in any interleaving: [true]
    pushes onto the first list, [false] onto the second. *)
Definition push_either {T : Type}
    (st : heap T * List * List) (op : bool * T) : heap T * List * List :=
  let '(h, l1, l2) := st in
  let (first, v) := op in
  if first then let (h', l1') := Push (h, l1) v in (h', l1', l2)
  else let (h', l2') := Push (h, l2) v in (h', l1, l2').

(** [lst] holds [vs] in the cells [ls]. *)
Definition is_list_in {T : Type} (h : heap T) (lst : List) (ls : list loc)
    (vs : list T) : Prop :=
  NoDup ls ∧ chain h (head lst) ls vs ∧ tail lst = last ls.

(** * Part III: facts *)

(** ** The orders on keys *)

Section KeyOrders.

Lemma N_of_ascii_inj x y : Ascii.N_of_ascii x = Ascii.N_of_ascii y → x = y.
Proof.
  intros H. rewrite <- (Ascii.ascii_N_embedding x), <- (Ascii.ascii_N_embedding y).
  by rewrite H.
Qed.

Lemma cmpstring_refl a : cmpstring a a = Eq.
Proof. induction a as [|x a IH]; simpl; [done|]. by rewrite N.compare_refl. Qed.

Lemma cmpstring_eq a : ∀ b, cmpstring a b = Eq → a = b.
Proof.
  induction a as [|x a IH]; intros [|y b]; simpl; try done.
  destruct (N.compare_spec (Ascii.N_of_ascii x) (Ascii.N_of_ascii y))
    as [Heq| |]; try done.
  intros ->%IH. by apply N_of_ascii_inj in Heq as ->.
Qed.

Lemma cmpstring_antisym a : ∀ b, cmpstring b a = CompOpp (cmpstring a b).
Proof.
  induction a as [|x a IH]; intros [|y b]; simpl; try done.
  rewrite (N.compare_antisym (Ascii.N_of_ascii x) (Ascii.N_of_ascii y)).
  destruct (Ascii.N_of_ascii x ?= Ascii.N_of_ascii y)%N; simpl; auto.
Qed.

Lemma cmpstring_lt_trans a : ∀ b c,
  cmpstring a b = Lt → cmpstring b c = Lt → cmpstring a c = Lt.
Proof.
  induction a as [|x a IH]; intros [|y b] [|z c]; simpl; try done.
  destruct (N.compare_spec (Ascii.N_of_ascii x) (Ascii.N_of_ascii y)) as [Hxy|Hxy|Hxy];
    destruct (N.compare_spec (Ascii.N_of_ascii y) (Ascii.N_of_ascii z)) as [Hyz|Hyz|Hyz];
    try done; intros Hab Hbc.
  - rewrite Hxy, Hyz, N.compare_refl. eauto.
  - rewrite Hxy. by apply N.compare_lt_iff in Hyz as ->.
  - rewrite <- Hyz. by apply N.compare_lt_iff in Hxy as ->.
  - assert (Ascii.N_of_ascii x < Ascii.N_of_ascii z)%N as Hxz by lia.
    by apply N.compare_lt_iff in Hxz as ->.
Qed.

Lemma string_lt_irrefl a : string_lt a a = false.
Proof. unfold string_lt. by rewrite cmpstring_refl. Qed.

Lemma string_lt_asym a b : string_lt a b = true → string_lt b a = false.
Proof.
  unfold string_lt. rewrite (cmpstring_antisym a b).
  by destruct (cmpstring a b).
Qed.

Lemma string_lt_trans a b c :
  string_lt a b = true → string_lt b c = true → string_lt a c = true.
Proof.
  unfold string_lt.
  destruct (cmpstring a b) eqn:Hab; try done.
  destruct (cmpstring b c) eqn:Hbc; try done.
  by rewrite (cmpstring_lt_trans a b c).
Qed.

Lemma string_lt_negtrans a b c :
  string_lt a b = false → string_lt b c = false → string_lt a c = false.
Proof.
  unfold string_lt.
  destruct (cmpstring a b) eqn:Hab; try done;
    destruct (cmpstring b c) eqn:Hbc; try done; intros _ _.
  - apply cmpstring_eq in Hab as ->. by rewrite Hbc.
  - apply cmpstring_eq in Hab as ->. by rewrite Hbc.
  - apply cmpstring_eq in Hbc as <-. by rewrite Hab.
  - rewrite (cmpstring_antisym c a).
    rewrite (cmpstring_lt_trans c b a); [done| |].
    + rewrite (cmpstring_antisym b c), Hbc. done.
    + rewrite (cmpstring_antisym a b), Hab. done.
Qed.

(** Go's [<] on strings decides the byte-lexicographic order. *)
Lemma string_lt_false_bytes_le a : ∀ b, string_lt b a = false → bytes_le a b.
Proof.
  unfold string_lt. induction a as [|x a IH]; intros [|y b]; simpl;
    [constructor|constructor|done|].
  destruct (N.compare_spec (Ascii.N_of_ascii y) (Ascii.N_of_ascii x)) as [Heq|Hlt|Hgt];
    try done.
  - apply N_of_ascii_inj in Heq as ->. intros Hrest.
    apply bytes_le_rest. by apply IH.
  - intros _. by apply bytes_le_byte.
Qed.

Lemma int_lt_irrefl a : int_lt a a = false.
Proof. unfold int_lt. lia. Qed.

Lemma int_lt_asym a b : int_lt a b = true → int_lt b a = false.
Proof. unfold int_lt. lia. Qed.

Lemma int_lt_trans a b c :
  int_lt a b = true → int_lt b c = true → int_lt a c = true.
Proof. unfold int_lt. lia. Qed.

Lemma int_lt_negtrans a b c :
  int_lt a b = false → int_lt b c = false → int_lt a c = false.
Proof. unfold int_lt. lia. Qed.

Lemma float_lt_irrefl a : float_lt a a = false.
Proof.
  unfold float_lt, SFltb.
  destruct a as [s|s| |s m e]; simpl; try done.
  - by destruct s.
  - rewrite Z.compare_refl, Pos.compare_cont_refl. by destruct s.
Qed.

Lemma float_lt_spec a b :
  float_lt a b = true ↔ SFcompare a b = Some Lt.
Proof.
  unfold float_lt, SFltb. destruct (SFcompare a b) as [[| |]|]; naive_solver.
Qed.

Lemma float_lt_trans a b c :
  float_lt a b = true → float_lt b c = true → float_lt a c = true.
Proof.
  rewrite !float_lt_spec.
  destruct a as [sa|sa| |sa ma ea], b as [sb|sb| |sb mb eb],
    c as [sc|sc| |sc mc ec]; simpl; try done;
    try (by destruct sa, sb, sc).
  destruct sa, sb, sc; try done;
    rewrite !Pos.compare_cont_spec; simpl;
    destruct (Z.compare_spec ea eb), (Z.compare_spec eb ec),
      (Z.compare_spec ea ec); try done; try lia; subst;
    destruct (Pos.compare_spec ma mb), (Pos.compare_spec mb mc),
      (Pos.compare_spec ma mc); simpl; try done; try lia.
Qed.

Lemma float_lt_asym a b : float_lt a b = true → float_lt b a = false.
Proof.
  intros Hab. destruct (float_lt b a) eqn:Hba; [|done].
  pose proof (float_lt_trans a b a Hab Hba) as H.
  by rewrite float_lt_irrefl in H.
Qed.

End KeyOrders.

(** ** Insertion sort *)

Section InsertionSortFacts.

Context {T : Type}.
Implicit Types (less : @LessFunc T) (P : T → Prop).

Lemma insertionSort_inner_perm less x before :
  (insertionSort_inner less x before).1 ≡ₚ x :: before.
Proof.
  induction before as [|y before IH]; cbn [insertionSort_inner]; [done|].
  destruct (less x y) as [[|]|e]; [|done|done].
  destruct (insertionSort_inner less x before) as [r st]. simpl in *.
  rewrite IH. apply perm_swap.
Qed.

Lemma insertionSort_outer_perm less rest : ∀ sorted,
  (insertionSort_outer less sorted rest).1 ≡ₚ reverse sorted ++ rest.
Proof.
  induction rest as [|x rest IH]; intros sorted; cbn [insertionSort_outer].
  - by rewrite app_nil_r.
  - pose proof (insertionSort_inner_perm less x sorted) as Hin.
    destruct (insertionSort_inner less x sorted) as [sorted' [|e]];
      simpl in Hin.
    + rewrite IH. rewrite !reverse_Permutation, Hin.
      apply Permutation_middle.
    + simpl. rewrite !reverse_Permutation, Hin.
      apply Permutation_middle.
Qed.

Lemma insertionSortLessFunc_perm less s :
  (insertionSortLessFunc less s).1 ≡ₚ s.
Proof. apply (insertionSort_outer_perm less s []). Qed.

Lemma insertionSort_inner_sorted P less x before :
  strict_weak_order_on P less → P x → Forall P before →
  StronglySorted (fun a b => less a b = Ok false) before →
  ∃ r, insertionSort_inner less x before = (r, Done)
       ∧ StronglySorted (fun a b => less a b = Ok false) r.
Proof.
  intros Hswo Hx. induction before as [|y before IH];
    intros HP Hs; cbn [insertionSort_inner].
  - eexists. split; [done|]. repeat constructor.
  - apply Forall_cons in HP as [Hy HP].
    apply StronglySorted_inv in Hs as [Hs Hy_before].
    destruct (swo_returns P less Hswo x y Hx Hy) as [[|] Hxy]; rewrite Hxy.
    + destruct (IH HP Hs) as (r & Hr & Hsr).
      pose proof (insertionSort_inner_perm less x before) as Hperm.
      rewrite Hr in *. simpl in Hperm.
      eexists. split; [done|]. constructor; [done|].
      rewrite Hperm. constructor; [|done].
      by eapply swo_asym.
    + eexists. split; [done|]. constructor.
      * by constructor.
      * constructor; [done|].
        rewrite Forall_forall in *. intros z Hz.
        eapply (swo_negtrans P less Hswo x y z); eauto.
Qed.

Lemma StronglySorted_reverse (R : relation T) (l : list T) :
  StronglySorted R l → StronglySorted (flip R) (reverse l).
Proof.
  induction 1 as [|a l Hs IH Ha]; [constructor|]. rewrite reverse_cons.
  apply StronglySorted_app_2; [|done|repeat constructor].
  intros x1 x2 Hx1 ->%list_elem_of_singleton.
  rewrite elem_of_reverse in Hx1.
  rewrite Forall_forall in Ha. by apply Ha.
Qed.

Lemma insertionSort_outer_sorted P less rest : ∀ sorted,
  strict_weak_order_on P less → Forall P sorted → Forall P rest →
  StronglySorted (fun a b => less a b = Ok false) sorted →
  ∃ out, insertionSort_outer less sorted rest = (out, Done)
         ∧ ordered less out.
Proof.
  induction rest as [|x rest IH]; intros sorted Hswo HPs HPr Hs;
    cbn [insertionSort_outer].
  - eexists. split; [done|]. by apply StronglySorted_reverse in Hs.
  - apply Forall_cons in HPr as [Hx HPr].
    destruct (insertionSort_inner_sorted P less x sorted) as (r & Hr & Hsr);
      try done.
    pose proof (insertionSort_inner_perm less x sorted) as Hperm.
    rewrite Hr in *. simpl in Hperm.
    apply IH; try done. rewrite Hperm. by constructor.
Qed.

(** Insertion sort honours the contract of [sort.Slice] on slices of any
    length. *)
Lemma insertionSortLessFunc_contract :
  sort_contract (@insertionSortLessFunc T).
Proof.
  split.
  - apply insertionSortLessFunc_perm.
  - intros P less x Hswo HP.
    destruct (insertionSort_outer_sorted P less x []) as (out & Hout & Ho);
      try done; [constructor|].
    unfold insertionSortLessFunc. by rewrite Hout.
Qed.

(** Insertion sort moves an element only past elements it is less than,
    so elements that tie keep their order. *)
Lemma insertionSort_inner_ties P less x before z :
  strict_weak_order_on P less → P x → Forall P before → P z →
  filter (λ y, ties less z y) (insertionSort_inner less x before).1
  = filter (λ y, ties less z y) (x :: before).
Proof.
  intros Hswo Hx HP Hz. induction before as [|y before IH];
    cbn [insertionSort_inner]; [done|].
  apply Forall_cons in HP as [Hy HP].
  destruct (less x y) as [[|]|e] eqn:Hxy; [|done|done].
  specialize (IH HP).
  destruct (insertionSort_inner less x before) as [r st]. simpl in *.
  assert (Hnot : ¬ (ties less z x ∧ ties less z y)).
  { unfold ties. intros [Hzx Hzy].
    destruct (less z x) as [[|]|] eqn:Hzx1; try done.
    destruct (less x z) as [[|]|] eqn:Hxz; try done.
    destruct (less z y) as [[|]|] eqn:Hzy1; try done.
    pose proof (swo_negtrans P less Hswo x z y Hx Hz Hy Hxz Hzy1). congruence. }
  rewrite !filter_cons in *.
  destruct (decide (ties less z y)), (decide (ties less z x)); try tauto;
    by rewrite IH.
Qed.

Lemma insertionSort_outer_ties P less rest z : ∀ sorted,
  strict_weak_order_on P less → Forall P sorted → Forall P rest → P z →
  filter (λ y, ties less z y) (insertionSort_outer less sorted rest).1
  = filter (λ y, ties less z y) (reverse sorted ++ rest).
Proof.
  induction rest as [|x rest IH]; intros sorted Hswo HPs HPr Hz;
    cbn [insertionSort_outer].
  - by rewrite app_nil_r.
  - apply Forall_cons in HPr as [Hx HPr].
    pose proof (insertionSort_inner_ties P less x sorted z Hswo Hx HPs Hz) as Hin.
    pose proof (insertionSort_inner_perm less x sorted) as Hperm.
    destruct (insertionSort_inner less x sorted) as [sorted' [|e]];
      simpl in Hin, Hperm.
    + rewrite IH; try done; [|rewrite Hperm; by constructor].
      rewrite !filter_app, !filter_reverse, Hin, !filter_cons.
      case_decide; [|done]. by rewrite reverse_cons, <- app_assoc.
    + simpl. rewrite !filter_app, !filter_reverse, Hin, !filter_cons.
      case_decide; [|done]. by rewrite reverse_cons, <- app_assoc.
Qed.

Lemma insertionSortLessFunc_stable P less s :
  strict_weak_order_on P less → Forall P s →
  keeps_ties less P s (insertionSortLessFunc less s).1.
Proof.
  intros Hswo HP z Hz. unfold insertionSortLessFunc.
  by rewrite (insertionSort_outer_ties P less s z []).
Qed.

(** When no element is reported less than another, nothing moves. *)
Lemma insertionSort_outer_noop P less rest : ∀ sorted,
  (∀ x y, P x → P y → less x y = Ok false) →
  Forall P sorted → Forall P rest →
  insertionSort_outer less sorted rest = (reverse sorted ++ rest, Done).
Proof.
  induction rest as [|x rest IH]; intros sorted Hless HPs HPr;
    cbn [insertionSort_outer].
  - by rewrite app_nil_r.
  - apply Forall_cons in HPr as [Hx HPr].
    assert (Hin : insertionSort_inner less x sorted = (x :: sorted, Done)).
    { destruct sorted as [|y sorted]; [done|]. cbn [insertionSort_inner].
      apply Forall_cons in HPs as [Hy _]. by rewrite (Hless x y). }
    rewrite Hin, IH; [|done|by constructor|done].
    by rewrite reverse_cons, <- app_assoc.
Qed.

Lemma insertionSortLessFunc_noop P less s :
  (∀ x y, P x → P y → less x y = Ok false) → Forall P s →
  insertionSortLessFunc less s = (s, Done).
Proof.
  intros Hless HP. unfold insertionSortLessFunc.
  by rewrite (insertionSort_outer_noop P less s []).
Qed.

(** When every comparison panics, the first one ends the sort and the
    slice is as it was. *)
Lemma insertionSortLessFunc_panics P less s e :
  (∀ x y, P x → P y → less x y = Panic e) → Forall P s →
  2 ≤ length s →
  insertionSortLessFunc less s = (s, Panicked e).
Proof.
  intros Hless HP Hlen.
  destruct s as [|x0 [|x1 s]]; simpl in Hlen; try lia.
  apply Forall_cons in HP as [H0 HP]. apply Forall_cons in HP as [H1 _].
  unfold insertionSortLessFunc. cbn.
  by rewrite (Hless x1 x0).
Qed.

End InsertionSortFacts.

(** ** [sort.Slice] *)

Section SortSliceFacts.

Context {T : Type}.
Variable pdqsort : @LessFunc T → list T → list T * Status.

Lemma sort_Slice_short (x : list T) less :
  length x ≤ maxInsertion →
  sort_Slice pdqsort x less = insertionSortLessFunc less x.
Proof. intros Hlen. unfold sort_Slice. by rewrite decide_True. Qed.

Lemma sort_Slice_perm (x : list T) less :
  (∀ less x, (pdqsort less x).1 ≡ₚ x) →
  (sort_Slice pdqsort x less).1 ≡ₚ x.
Proof.
  intros Hperm. unfold sort_Slice. case_decide; [|done].
  apply insertionSortLessFunc_perm.
Qed.

Lemma sort_Slice_orders P (x : list T) less :
  sort_contract pdqsort → strict_weak_order_on P less → Forall P x →
  (sort_Slice pdqsort x less).2 = Done
  ∧ ordered less (sort_Slice pdqsort x less).1.
Proof.
  intros Hc Hswo HP. unfold sort_Slice. case_decide.
  - by apply (sort_orders _ insertionSortLessFunc_contract P).
  - by apply (sort_orders _ Hc P).
Qed.

(** On a slice of at most [maxInsertion] elements [sort.Slice] is a stable
    sort. *)
Lemma sort_Slice_short_stable P (x : list T) less :
  strict_weak_order_on P less → Forall P x → length x ≤ maxInsertion →
  (sort_Slice pdqsort x less).2 = Done
  ∧ ordered less (sort_Slice pdqsort x less).1
  ∧ keeps_ties less P x (sort_Slice pdqsort x less).1.
Proof.
  intros Hswo HP Hlen. rewrite sort_Slice_short by done.
  destruct (sort_orders _ insertionSortLessFunc_contract P less x Hswo HP)
    as [Hd Ho].
  split; [done|]. split; [done|]. by apply insertionSortLessFunc_stable.
Qed.

End SortSliceFacts.

(** ** The comparators on well-formed records *)

Section ComparatorFacts.

Implicit Types (F : string) (asc : bool) (a b c : Value).

Lemma NewStringSorter_keys F asc a b sa sb :
  string_key F a = Some sa → string_key F b = Some sb →
  NewStringSorter F asc a b = Ok (directed string_lt asc sa sb).
Proof.
  unfold string_key, NewStringSorter, directed.
  destruct a as [| | | | | |tyA fa|]; try done; simpl.
  destruct (reflect.field fa F); try done. intros [= ->].
  destruct b as [| | | | | |tyB fb|]; try done; simpl.
  destruct (reflect.field fb F); try done. intros [= ->].
  by destruct asc.
Qed.

Lemma NewIntSorter_keys F asc a b ia ib :
  int_key F a = Some ia → int_key F b = Some ib →
  NewIntSorter F asc a b = Ok (directed int_lt asc ia ib).
Proof.
  unfold int_key, NewIntSorter, directed.
  destruct a as [| | | | | |tyA fa|]; try done; simpl.
  destruct (reflect.field fa F); try done. intros [= ->].
  destruct b as [| | | | | |tyB fb|]; try done; simpl.
  destruct (reflect.field fb F); try done. intros [= ->].
  by destruct asc.
Qed.

Lemma NewGenericSorter_string_keys F asc a b sa sb :
  string_key F a = Some sa → string_key F b = Some sb →
  NewGenericSorter F asc a b = Ok (directed string_lt asc sa sb).
Proof.
  unfold string_key, NewGenericSorter, directed.
  destruct a as [| | | | | |tyA fa|]; try done; simpl.
  destruct (reflect.field fa F); try done. intros [= ->].
  destruct b as [| | | | | |tyB fb|]; try done; simpl.
  destruct (reflect.field fb F); try done. intros [= ->].
  by destruct asc.
Qed.

Lemma NewGenericSorter_int_keys F asc a b ia ib :
  int_key F a = Some ia → int_key F b = Some ib →
  NewGenericSorter F asc a b = Ok (directed int_lt asc ia ib).
Proof.
  unfold int_key, NewGenericSorter, directed.
  destruct a as [| | | | | |tyA fa|]; try done; simpl.
  destruct (reflect.field fa F) as [| |ka ? ?| | | | |]; try done. intros [= ->].
  destruct b as [| | | | | |tyB fb|]; try done; simpl.
  destruct (reflect.field fb F); try done. intros [= ->].
  by destruct ka, asc.
Qed.

Lemma NewGenericSorter_float_keys F asc a b fa fb :
  float_key F a = Some fa → float_key F b = Some fb →
  NewGenericSorter F asc a b = Ok (directed float_lt asc fa fb).
Proof.
  unfold float_key, NewGenericSorter, directed.
  destruct a as [| | | | | |tyA fsa|]; try done; simpl.
  destruct (reflect.field fsa F) as [| | |ka ? ?| | | |]; try done. intros [= ->].
  destruct b as [| | | | | |tyB fsb|]; try done; simpl.
  destruct (reflect.field fsb F); try done. intros [= ->].
  by destruct ka, asc.
Qed.

(** A comparator that applies a strict order to the keys of its operands
    is a strict order on the records that have a key. *)
Lemma keyed_strict_order {K : Type} (key : Value → option K)
    (lt : K → K → bool) (asc : bool) (less : Comparator) :
  (∀ a b ka kb, key a = Some ka → key b = Some kb →
     less a b = Ok (directed lt asc ka kb)) →
  (∀ k, lt k k = false) →
  (∀ x y, lt x y = true → lt y x = false) →
  (∀ x y z, lt x y = true → lt y z = true → lt x z = true) →
  strict_order_on (fun a => is_Some (key a)) less.
Proof.
  intros Hless Hirr Hasym Htrans. split.
  - intros a [ka Ha]. rewrite (Hless a a ka ka Ha Ha).
    unfold directed. destruct asc; by rewrite Hirr.
  - intros a b [ka Ha] [kb Hb] [Hab Hba].
    rewrite (Hless a b ka kb Ha Hb) in Hab.
    rewrite (Hless b a kb ka Hb Ha) in Hba.
    unfold directed in *. injection Hab as Hab. injection Hba as Hba.
    destruct asc; apply Hasym in Hab; congruence.
  - intros a b c [ka Ha] [kb Hb] [kc Hc].
    rewrite (Hless a b ka kb Ha Hb), (Hless b c kb kc Hb Hc),
      (Hless a c ka kc Ha Hc).
    unfold directed. intros [= Hab] [= Hbc]. f_equal.
    destruct asc; eauto.
Qed.

(** With a strict total order on the keys, it is all that package sort
    asks of [less]. *)
Lemma keyed_strict_weak_order {K : Type} (key : Value → option K)
    (lt : K → K → bool) (asc : bool) (less : Comparator) :
  (∀ a b ka kb, key a = Some ka → key b = Some kb →
     less a b = Ok (directed lt asc ka kb)) →
  (∀ k, lt k k = false) →
  (∀ x y, lt x y = true → lt y x = false) →
  (∀ x y z, lt x y = true → lt y z = true → lt x z = true) →
  (∀ x y z, lt x y = false → lt y z = false → lt x z = false) →
  strict_weak_order_on (fun a => is_Some (key a)) less.
Proof.
  intros Hless Hirr Hasym Htrans Hneg.
  destruct (keyed_strict_order key lt asc less Hless Hirr Hasym Htrans)
    as [Hi Ha Ht].
  split; [|done| |done|].
  - intros a b [ka Ha'] [kb Hb]. rewrite (Hless a b ka kb Ha' Hb). eauto.
  - intros a b [ka Ha'] [kb Hb].
    rewrite (Hless a b ka kb Ha' Hb), (Hless b a kb ka Hb Ha').
    unfold directed. intros [= Hab]. f_equal. destruct asc; eauto.
  - intros a b c [ka Ha'] [kb Hb] [kc Hc].
    rewrite (Hless a b ka kb Ha' Hb), (Hless b c kb kc Hb Hc),
      (Hless a c ka kc Ha' Hc).
    unfold directed. intros [= Hab] [= Hbc]. f_equal.
    destruct asc; eauto.
Qed.

Lemma NewStringSorter_swo F asc :
  strict_weak_order_on (has_field StringField F) (NewStringSorter F asc).
Proof.
  apply (keyed_strict_weak_order (string_key F) string_lt asc).
  - apply NewStringSorter_keys.
  - apply string_lt_irrefl.
  - apply string_lt_asym.
  - apply string_lt_trans.
  - apply string_lt_negtrans.
Qed.

End ComparatorFacts.

(** In a slice ordered by a comparator that applies [<] to the strings
    under [F], these strings ascend byte-lexicographically. *)
Lemma ordered_string_keys (F : string) (less : Comparator) (out : list Value) :
  (∀ a b ka kb, string_key F a = Some ka → string_key F b = Some kb →
     less a b = Ok (string_lt ka kb)) →
  Forall (has_field StringField F) out →
  ordered less out →
  ∃ keys, string_key F <$> out = Some <$> keys
          ∧ StronglySorted bytes_le keys.
Proof.
  intros Hless. induction out as [|a out IH]; intros HPout Hord.
  - exists []. split; [done|constructor].
  - apply Forall_cons in HPout as [[ka Ha] HPout].
    apply StronglySorted_inv in Hord as [Hord Hall].
    destruct (IH HPout Hord) as (keys & Hk & Hs).
    exists (ka :: keys). split.
    + rewrite !fmap_cons. by rewrite Ha, Hk.
    + constructor; [done|].
      rewrite Forall_forall. intros kb Hkb.
      assert (Some kb ∈ string_key F <$> out) as Hin.
      { rewrite Hk. by apply list_elem_of_fmap_2. }
      apply list_elem_of_fmap in Hin as (b & Hb & Hbin).
      rewrite Forall_forall in Hall. specialize (Hall b Hbin).
      rewrite (Hless b a kb ka) in Hall by done.
      injection Hall as Hall. by apply string_lt_false_bytes_le.
Qed.

(** [sort.Slice] with such a comparator, on structs that have the string
    field. *)
Lemma sort_Slice_by_string
    (pdqsort : @LessFunc Value → list Value → list Value * Status)
    (F : string) (less : Comparator) (s : list Value) :
  sort_contract pdqsort →
  (∀ a b ka kb, string_key F a = Some ka → string_key F b = Some kb →
     less a b = Ok (string_lt ka kb)) →
  Forall (has_field StringField F) s →
  ∃ out, sort_Slice pdqsort s less = (out, Done)
         ∧ ascending_by_string F s out.
Proof.
  intros Hc Hless HP.
  assert (Hswo : strict_weak_order_on (has_field StringField F) less).
  { apply (keyed_strict_weak_order (string_key F) string_lt true); try done.
    - apply string_lt_irrefl.
    - apply string_lt_asym.
    - apply string_lt_trans.
    - apply string_lt_negtrans. }
  destruct (sort_Slice_orders pdqsort _ s less Hc Hswo HP) as [Hdone Hord].
  pose proof (sort_Slice_perm pdqsort s less (sort_permutes _ Hc)) as Hperm.
  destruct (sort_Slice pdqsort s less) as [out st]. simpl in *. subst st.
  exists out. split; [done|]. split; [done|].
  apply (ordered_string_keys F less); [done| |done]. by rewrite Hperm.
Qed.

(** ** The list in the heap *)

Section LinkedListFacts.

Context {T : Type}.
Implicit Types (h : heap T) (lst : List) (p : option loc)
  (ls : list loc) (vs : list T).

Lemma chain_length h p ls vs : chain h p ls vs → length ls = length vs.
Proof.
  revert p vs. induction ls as [|l ls IH]; intros p [|v vs]; cbn [chain]; try done.
  intros (_ & nx & _ & Hc). cbn [length]. f_equal. eauto.
Qed.

Lemma chain_dom h p ls vs l : chain h p ls vs → l ∈ ls → l ∈ dom h.
Proof.
  revert p vs. induction ls as [|l0 ls IH]; intros p [|v vs]; cbn [chain]; try done.
  - by intros _ ?%elem_of_nil.
  - intros (_ & nx & Hl & Hc) [->|Hin]%elem_of_cons.
    + by eapply elem_of_dom_2.
    + eauto.
Qed.

Lemma chain_bound h p ls vs : NoDup ls → chain h p ls vs → length ls ≤ size h.
Proof.
  intros Hnd Hc. rewrite <- size_dom.
  rewrite <- (size_list_to_set (C := gset loc) ls) by done.
  apply subseteq_size. intros l Hl%elem_of_list_to_set.
  by eapply chain_dom.
Qed.

(** Cells outside [ls] do not matter to the chain. *)
Lemma chain_frame h h' p ls vs :
  (∀ l, l ∈ ls → h' !! l = h !! l) → chain h p ls vs → chain h' p ls vs.
Proof.
  revert p vs. induction ls as [|l ls IH]; intros p [|v vs] Hsame; cbn [chain]; try done.
  intros (-> & nx & Hl & Hc). split; [done|]. exists nx. split.
  - rewrite Hsame; [done|]. by left.
  - apply IH; [|done]. intros l' Hl'. apply Hsame. by right.
Qed.

(** Linking a new cell behind the last one extends the chain. *)
Lemma chain_snoc h p ls vs t l v :
  chain h p ls vs → last ls = Some t → NoDup ls → l ∉ ls →
  h !! l = Some (mkElement None v) →
  chain (alter (fun e => mkElement (Some l) (val e)) t h) p (ls ++ [l]) (vs ++ [v]).
Proof.
  revert p vs. induction ls as [|l0 ls IH]; intros p [|w vs]; cbn [chain]; try done.
  intros (-> & nx & Hl0 & Hc) Hlast Hnd Hnotin Hl.
  apply NoDup_cons in Hnd as [Hl0ls Hnd].
  apply not_elem_of_cons in Hnotin as [Hne Hnotin].
  split; [done|]. destruct ls as [|l1 ls].
  - destruct vs; [|done]. simpl in *. subst nx.
    injection Hlast as <-.
    exists (Some l). split.
    + by rewrite lookup_alter_eq, Hl0.
    + split; [done|]. exists None. split; [|done].
      by rewrite lookup_alter_ne.
  - exists nx. split.
    + rewrite lookup_alter_ne; [done|].
      intros ->. apply Hl0ls. apply last_Some_elem_of. done.
    + apply IH; done.
Qed.

Lemma is_list_empty h : is_list h emptyList [].
Proof. exists []. split; [constructor|]. done. Qed.

Lemma Push_is_list h lst vs v :
  is_list h lst vs →
  is_list (Push (h, lst) v).1 (Push (h, lst) v).2 (vs ++ [v]).
Proof.
  intros (ls & Hnd & Hc & Htl). unfold Push, new_element.
  pose proof (is_fresh (dom h)) as Hfresh.
  set (l := fresh (dom h)) in *.
  assert (Hl : l ∉ ls) by (intros Hin; apply Hfresh; by eapply chain_dom).
  destruct (tail lst) as [t|] eqn:Ht; simpl.
  - exists (ls ++ [l]). split; [|split].
    + apply NoDup_app. split; [done|]. split; [|apply NoDup_singleton].
      intros x Hx ->%list_elem_of_singleton. done.
    + apply chain_snoc; try done.
      * apply chain_frame with h; [|done].
        intros l' Hl'. rewrite lookup_insert_ne; [done|]. by intros ->.
      * by rewrite lookup_insert_eq.
    + by rewrite last_snoc.
  - symmetry in Htl. apply last_None in Htl. subst ls.
    destruct vs; [|done]. simpl in Hc.
    exists [l]. split; [apply NoDup_singleton|]. split; [|done].
    simpl. split; [done|]. exists None. by rewrite lookup_insert_eq.
Qed.

Lemma pushes_is_list vs : ∀ h lst ws,
  is_list h lst ws →
  is_list (foldl Push (h, lst) vs).1 (foldl Push (h, lst) vs).2 (ws ++ vs).
Proof.
  induction vs as [|v vs IH]; intros h lst ws Hl; cbn [foldl].
  - by rewrite app_nil_r.
  - destruct (Push (h, lst) v) as [h' lst'] eqn:HP.
    replace (ws ++ v :: vs) with ((ws ++ [v]) ++ vs) by by rewrite <- app_assoc.
    apply IH. pose proof (Push_is_list h lst ws v Hl) as H.
    by rewrite HP in H.
Qed.

Lemma chain_AllElements_loop h ls : ∀ p vs fuel elems,
  chain h p ls vs → length ls < fuel →
  AllElements_loop fuel h p elems = Some (elems ++ vs).
Proof.
  induction ls as [|l ls IH]; intros p [|v vs] [|fuel] elems; simpl; try done;
    try lia.
  - intros -> _. by rewrite app_nil_r.
  - intros (-> & nx & Hl & Hc) Hf. rewrite Hl. simpl.
    rewrite (IH nx vs); [|done|lia]. by rewrite <- app_assoc.
Qed.

Lemma chain_All_loop {St : Type} h ls (yield : T → St → St * bool) :
  ∀ p vs fuel s,
  chain h p ls vs → length ls < fuel →
  All_loop fuel h p yield s = Some (range_slice vs yield s).
Proof.
  induction ls as [|l ls IH]; intros p [|v vs] [|fuel] s; simpl; try done;
    try lia.
  - by intros -> _.
  - intros (-> & nx & Hl & Hc) Hf. rewrite Hl. simpl.
    destruct (yield v s) as [s' [|]]; [|done].
    apply IH; [done|lia].
Qed.

Lemma range_slice_collect vs : ∀ acc : list T,
  range_slice vs (fun v acc => (acc ++ [v], true)) acc = acc ++ vs.
Proof.
  induction vs as [|v vs IH]; intros acc; simpl.
  - by rewrite app_nil_r.
  - by rewrite IH, <- app_assoc.
Qed.

End LinkedListFacts.

(** ** Sorting by a key *)

Section KeyedSorting.

Lemma float_lt_negtrans (a b c : spec_float) :
  is_number a → is_number b → is_number c →
  float_lt a b = false → float_lt b c = false → float_lt a c = false.
Proof.
  unfold is_number, float_lt, SFltb.
  destruct a as [sa|sa| |sa ma ea], b as [sb|sb| |sb mb eb],
    c as [sc|sc| |sc mc ec]; simpl; try done; intros _ _ _;
    try (by destruct sa, sb, sc).
  destruct sa, sb, sc; try done;
    rewrite !Pos.compare_cont_spec; simpl;
    destruct (Z.compare_spec ea eb), (Z.compare_spec eb ec),
      (Z.compare_spec ea ec); try done; try lia; subst;
    destruct (Pos.compare_spec ma mb), (Pos.compare_spec mb mc),
      (Pos.compare_spec ma mc); simpl; try done; try lia.
Qed.

Context {T K : Type}.
Implicit Types (key : T → option K) (Q : K → Prop) (lt : K → K → bool)
  (less : @LessFunc T).

(** A comparator that applies a strict order with a transitive "neither
    is less" to the keys of its operands is what package sort asks for, on
    the elements that have a key. *)
Lemma keyed_swo_on key Q lt (asc : bool) less :
  (∀ a k, key a = Some k → Q k) →
  (∀ a b ka kb, key a = Some ka → key b = Some kb →
     less a b = Ok (directed lt asc ka kb)) →
  (∀ k, Q k → lt k k = false) →
  (∀ x y, Q x → Q y → lt x y = true → lt y x = false) →
  (∀ x y z, Q x → Q y → Q z → lt x y = true → lt y z = true → lt x z = true) →
  (∀ x y z, Q x → Q y → Q z →
     lt x y = false → lt y z = false → lt x z = false) →
  strict_weak_order_on (λ a, is_Some (key a)) less.
Proof.
  intros HQ Hless Hirr Hasym Htrans Hneg. split.
  - intros a b [ka Ha] [kb Hb]. rewrite (Hless a b ka kb Ha Hb). eauto.
  - intros a [ka Ha]. rewrite (Hless a a ka ka Ha Ha).
    unfold directed. destruct asc; rewrite Hirr; eauto.
  - intros a b [ka Ha] [kb Hb].
    rewrite (Hless a b ka kb Ha Hb), (Hless b a kb ka Hb Ha).
    unfold directed. intros [= Hab]. f_equal. destruct asc; eauto.
  - intros a b c [ka Ha] [kb Hb] [kc Hc].
    rewrite (Hless a b ka kb Ha Hb), (Hless b c kb kc Hb Hc),
      (Hless a c ka kc Ha Hc).
    unfold directed. intros [= Hab] [= Hbc]. f_equal. destruct asc; eauto.
  - intros a b c [ka Ha] [kb Hb] [kc Hc].
    rewrite (Hless a b ka kb Ha Hb), (Hless b c kb kc Hb Hc),
      (Hless a c ka kc Ha Hc).
    unfold directed. intros [= Hab] [= Hbc]. f_equal. destruct asc; eauto.
Qed.

(** In a slice ordered by such a comparator no key is less, in the
    direction of the sort, than a key before it. *)
Lemma ordered_keys key lt (asc : bool) less (out : list T) :
  (∀ a b ka kb, key a = Some ka → key b = Some kb →
     less a b = Ok (directed lt asc ka kb)) →
  Forall (λ a, is_Some (key a)) out →
  ordered less out →
  ∃ keys, key <$> out = Some <$> keys
          ∧ StronglySorted (λ x y, directed lt asc y x = false) keys.
Proof.
  intros Hless. induction out as [|a out IH]; intros HPout Hord.
  - exists []. split; [done|constructor].
  - apply Forall_cons in HPout as [[ka Ha] HPout].
    apply StronglySorted_inv in Hord as [Hord Hall].
    destruct (IH HPout Hord) as (keys & Hk & Hs).
    exists (ka :: keys). split.
    + rewrite !fmap_cons. by rewrite Ha, Hk.
    + constructor; [done|].
      rewrite Forall_forall. intros kb Hkb.
      assert (Some kb ∈ key <$> out) as Hin.
      { rewrite Hk. by apply list_elem_of_fmap_2. }
      apply list_elem_of_fmap in Hin as (b & Hb & Hbin).
      rewrite Forall_forall in Hall. specialize (Hall b Hbin).
      rewrite (Hless b a kb ka) in Hall by done. by injection Hall.
Qed.

Lemma sort_Slice_keyed
    (pdqsort : @LessFunc T → list T → list T * Status)
    key Q lt (asc : bool) less (s : list T) :
  sort_contract pdqsort →
  (∀ a k, key a = Some k → Q k) →
  (∀ a b ka kb, key a = Some ka → key b = Some kb →
     less a b = Ok (directed lt asc ka kb)) →
  (∀ k, Q k → lt k k = false) →
  (∀ x y, Q x → Q y → lt x y = true → lt y x = false) →
  (∀ x y z, Q x → Q y → Q z → lt x y = true → lt y z = true → lt x z = true) →
  (∀ x y z, Q x → Q y → Q z →
     lt x y = false → lt y z = false → lt x z = false) →
  Forall (λ a, is_Some (key a)) s →
  ∃ out keys, sort_Slice pdqsort s less = (out, Done)
    ∧ out ≡ₚ s
    ∧ key <$> out = Some <$> keys
    ∧ StronglySorted (λ x y, directed lt asc y x = false) keys.
Proof.
  intros Hc HQ Hless Hirr Hasym Htrans Hneg HP.
  pose proof (keyed_swo_on key Q lt asc less HQ Hless Hirr Hasym Htrans Hneg)
    as Hswo.
  destruct (sort_Slice_orders pdqsort _ s less Hc Hswo HP) as [Hdone Hord].
  pose proof (sort_Slice_perm pdqsort s less (sort_permutes _ Hc)) as Hperm.
  destruct (sort_Slice pdqsort s less) as [out st]. simpl in *. subst st.
  destruct (ordered_keys key lt asc less out Hless) as (keys & Hk & Hs);
    [by rewrite Hperm|done|].
  by exists out, keys.
Qed.

End KeyedSorting.

Section KeyedSortingHelpers.

Context {T K : Type}.

Lemma StronglySorted_weaken (R R' : K → K → Prop) (l : list K) :
  (∀ x y, R x y → R' x y) → StronglySorted R l → StronglySorted R' l.
Proof.
  intros HR. induction 1 as [|x l Hs IH Hx]; constructor; [done|].
  eapply Forall_impl; [exact Hx|]. intros y. apply HR.
Qed.

Lemma fmap_Some_weaken (k1 k2 : T → option K) (l : list T) : ∀ keys,
  (∀ a k, k1 a = Some k → k2 a = Some k) →
  k1 <$> l = Some <$> keys → k2 <$> l = Some <$> keys.
Proof.
  induction l as [|a l IH]; intros [|k keys] Hk; try done.
  rewrite !fmap_cons. intros [= Ha Hl]. by rewrite (Hk a k Ha), (IH keys Hk Hl).
Qed.

Lemma fmap_Some_Forall (k1 : T → option K) (Q : K → Prop) (l : list T) :
  ∀ keys,
  (∀ a k, k1 a = Some k → Q k) →
  k1 <$> l = Some <$> keys → Forall Q keys.
Proof.
  induction l as [|a l IH]; intros [|k keys] Hk; try done.
  rewrite !fmap_cons. intros [= Ha Hl]. constructor; [by eapply Hk|].
  by apply IH.
Qed.

Lemma fmap_Some_total (f : T → K) (l : list T) : ∀ keys,
  Some ∘ f <$> l = Some <$> keys → keys = f <$> l.
Proof.
  induction l as [|a l IH]; intros [|k keys]; try done.
  rewrite !fmap_cons. intros [= -> Hl]. by rewrite (IH keys Hl).
Qed.

End KeyedSortingHelpers.

Section SorterFacts.

Variable pdqsort : @LessFunc Value → list Value → list Value * Status.
Hypothesis pdqsort_ok : sort_contract pdqsort.

Lemma sort_Slice_by_string_key (F : string) (asc : bool) (less : Comparator)
    (s : list Value) :
  (∀ a b ka kb, string_key F a = Some ka → string_key F b = Some kb →
     less a b = Ok (directed string_lt asc ka kb)) →
  Forall (has_field StringField F) s →
  ∃ out keys, sort_Slice pdqsort s less = (out, Done)
    ∧ out ≡ₚ s ∧ string_key F <$> out = Some <$> keys
    ∧ StronglySorted (if asc then bytes_le else flip bytes_le) keys.
Proof.
  intros Hless HP.
  destruct (sort_Slice_keyed pdqsort (string_key F) (λ _, True) string_lt asc
              less s) as (out & keys & Hout & Hperm & Hk & Hs); try done.
  - intros. apply string_lt_irrefl.
  - intros. by apply string_lt_asym.
  - intros. by eapply string_lt_trans.
  - intros. by eapply string_lt_negtrans.
  - exists out, keys. repeat (split; [done|]).
    eapply StronglySorted_weaken; [|done]. unfold directed.
    destruct asc; intros x y Hxy; by apply string_lt_false_bytes_le.
Qed.

Lemma sort_Slice_by_int_key (F : string) (asc : bool) (less : Comparator)
    (s : list Value) :
  (∀ a b ka kb, int_key F a = Some ka → int_key F b = Some kb →
     less a b = Ok (directed int_lt asc ka kb)) →
  Forall (has_field IntField F) s →
  ∃ out keys, sort_Slice pdqsort s less = (out, Done)
    ∧ out ≡ₚ s ∧ int_key F <$> out = Some <$> keys
    ∧ StronglySorted (if asc then Z.le else Z.ge) keys.
Proof.
  intros Hless HP.
  destruct (sort_Slice_keyed pdqsort (int_key F) (λ _, True) int_lt asc
              less s) as (out & keys & Hout & Hperm & Hk & Hs); try done.
  - intros. apply int_lt_irrefl.
  - intros. by apply int_lt_asym.
  - intros. by eapply int_lt_trans.
  - intros. by eapply int_lt_negtrans.
  - exists out, keys. repeat (split; [done|]).
    eapply StronglySorted_weaken; [|done]. unfold directed, int_lt.
    destruct asc; intros x y Hxy; lia.
Qed.

Lemma number_key_float_key (F : string) (a : Value) (k : spec_float) :
  number_key F a = Some k ↔ float_key F a = Some k ∧ is_number k.
Proof.
  unfold number_key, is_number.
  destruct (float_key F a) as [[]|]; split;
    try (by intros [= <-]); try (by intros [[= <-] ?]).
Qed.

Lemma sort_Slice_by_number_key (F : string) (asc : bool) (less : Comparator)
    (s : list Value) :
  (∀ a b ka kb, float_key F a = Some ka → float_key F b = Some kb →
     less a b = Ok (directed float_lt asc ka kb)) →
  Forall (λ a, ∃ f, float_key F a = Some f ∧ is_number f) s →
  ∃ out keys, sort_Slice pdqsort s less = (out, Done)
    ∧ out ≡ₚ s ∧ float_key F <$> out = Some <$> keys
    ∧ Forall is_number keys
    ∧ StronglySorted (λ x y, directed float_lt asc y x = false) keys.
Proof.
  intros Hless HP.
  destruct (sort_Slice_keyed pdqsort (number_key F) is_number float_lt asc
              less s) as (out & keys & Hout & Hperm & Hk & Hs).
  - done.
  - intros a k Hk. by apply number_key_float_key in Hk as [_ ?].
  - intros a b ka kb [Ha _]%number_key_float_key [Hb _]%number_key_float_key.
    by apply Hless.
  - intros. apply float_lt_irrefl.
  - intros. by apply float_lt_asym.
  - intros. by eapply float_lt_trans.
  - intros x y z ? ? ?. by apply float_lt_negtrans.
  - eapply Forall_impl; [done|]. intros a (f & Hf & Hnum).
    exists f. by apply number_key_float_key.
  - exists out, keys. repeat (split; [done|]). split; [|split; [|done]].
    + eapply fmap_Some_weaken; [|done].
      intros a k. by intros [? _]%number_key_float_key.
    + eapply fmap_Some_Forall; [|done].
      intros a k. by intros [_ ?]%number_key_float_key.
Qed.

End SorterFacts.

Section ValueSorterFacts.

Variable pdqsort : @LessFunc Value → list Value → list Value * Status.
Hypothesis pdqsort_ok : sort_contract pdqsort.

Lemma sorted_by_intro {K : Type} (key : Value → option K) (R : K → K → Prop)
    (less : Comparator) (s : list Value) :
  (∃ out keys, sort_Slice pdqsort s less = (out, Done)
     ∧ out ≡ₚ s ∧ key <$> out = Some <$> keys ∧ StronglySorted R keys) →
  ∃ out, sort_Slice pdqsort s less = (out, Done) ∧ sorted_by key R s out.
Proof.
  intros (out & keys & Hout & Hperm & Hk & Hs). exists out.
  split; [done|]. split; [done|]. by exists keys.
Qed.

Lemma float_closure_keys (F : string) (asc : bool) (a b : Value)
    (fa fb : spec_float) :
  float_key F a = Some fa → float_key F b = Some fb →
  (valueI ← reflect.FieldByName a F;
   valueJ ← reflect.FieldByName b F;
   floatI ← reflect.Float valueI;
   floatJ ← reflect.Float valueJ;
   if asc then Ok (float_lt floatI floatJ) else Ok (float_lt floatJ floatI))
  = Ok (directed float_lt asc fa fb).
Proof.
  unfold float_key, directed.
  destruct a as [| | | | | |tyA fsa|]; try done; simpl.
  destruct (reflect.field fsa F); try done. intros [= ->].
  destruct b as [| | | | | |tyB fsb|]; try done; simpl.
  destruct (reflect.field fsb F); try done. intros [= ->].
  by destruct asc.
Qed.

End ValueSorterFacts.

(** ** Records of one key on short slices *)

Section ShortSliceFacts.

Lemma filter_ext_Forall {A : Type} (P Q : A → Prop)
    `{!∀ x, Decision (P x)} `{!∀ x, Decision (Q x)} (l : list A) :
  Forall (λ x, P x ↔ Q x) l → filter P l = filter Q l.
Proof.
  induction 1 as [|x l Hx _ IH]; [done|].
  rewrite !filter_cons, IH. destruct (decide (P x)), (decide (Q x)); tauto.
Qed.

Lemma filter_none {A : Type} (P : A → Prop) `{!∀ x, Decision (P x)}
    (l : list A) :
  Forall (λ x, ¬ P x) l → filter P l = [].
Proof.
  induction 1 as [|x l Hx _ IH]; [done|].
  by rewrite filter_cons, IH, decide_False.
Qed.

Lemma string_lt_tie (x y : string) :
  string_lt x y = false → string_lt y x = false → x = y.
Proof.
  unfold string_lt. rewrite (cmpstring_antisym x y).
  destruct (cmpstring x y) eqn:Hxy; try done.
  intros _ _. by apply cmpstring_eq.
Qed.

Lemma int_lt_tie (x y : Z) : int_lt x y = false → int_lt y x = false → x = y.
Proof. unfold int_lt. lia. Qed.

(** When ties keep their order, so do the records of one key. *)
Lemma keeps_ties_by_key {K : Type} `{!EqDecision K}
    (key : Value → option K) (lt : K → K → bool) (asc : bool)
    (less : Comparator) (s out : list Value) (k : K) :
  (∀ a b ka kb, key a = Some ka → key b = Some kb →
     less a b = Ok (directed lt asc ka kb)) →
  (∀ x, lt x x = false) →
  (∀ x y, lt x y = false → lt y x = false → x = y) →
  Forall (λ a, is_Some (key a)) s → out ≡ₚ s →
  keeps_ties less (λ a, is_Some (key a)) s out →
  filter (λ a, key a = Some k) out = filter (λ a, key a = Some k) s.
Proof.
  intros Hless Hirr Htie HP Hperm Hties.
  assert (Hclass : ∀ z l, key z = Some k → Forall (λ a, is_Some (key a)) l →
            filter (λ a, key a = Some k) l
            = filter (λ y, ties less z y) l).
  { intros z l Hz Hl. apply filter_ext_Forall.
    eapply Forall_impl; [exact Hl|]. intros y [ky Hy]. unfold ties.
    rewrite (Hless z y k ky Hz Hy), (Hless y z ky k Hy Hz). unfold directed.
    split.
    - rewrite Hy. intros [= ->]. by destruct asc; rewrite Hirr.
    - rewrite Hy. destruct asc;
        destruct (lt k ky) eqn:H1, (lt ky k) eqn:H2; try done;
        intros _; f_equal; symmetry; by (apply Htie || (symmetry; apply Htie)). }
  destruct (decide (Exists (λ a, key a = Some k) s)) as [Hex|Hnex].
  - apply Exists_exists in Hex as (z & Hzs & Hz).
    rewrite !(Hclass z) by (done || by rewrite Hperm).
    apply Hties. by eexists.
  - apply Forall_Exists_neg in Hnex.
    assert (Hout : Forall (λ a, ¬ key a = Some k) out) by by rewrite Hperm.
    by rewrite !filter_none.
Qed.

End ShortSliceFacts.

(** * The claims *)

(** C1, as the code has it.  For operands on which [FieldByName] returns,
    which it does on a struct unless the field is promoted through a nil
    embedded pointer:
    - when the field of the first operand is of a kind other than string,
      integer or float, or is no field at all, the comparator of
      [NewGenericSorter] returns plain [false];
    - the comparator of [NewStringSorter] returns a [bool]: it orders the
      operands by what [Value.String] prints for their fields, which for a
      field that is not a string is the placeholder ["<T Value>"];
    - the comparator of [NewIntSorter] panics with the [ValueError] of
      [Value.Int] when the field of the first operand is not an integer.
    A comparator has no other outcome than a [bool] or a panic. *)
Theorem mismatched_kind_outcomes (F : string) (ascending : bool)
    (a b fieldA fieldB : Value) :
  reflect.FieldByName a F = Ok fieldA →
  reflect.FieldByName b F = Ok fieldB →
  (supported (reflect.Kind fieldA) = false →
     NewGenericSorter F ascending a b = Ok false)
  ∧ NewStringSorter F ascending a b
    = Ok (directed string_lt ascending
            (reflect.String fieldA) (reflect.String fieldB))
  ∧ (∀ e, reflect.Int fieldA = Panic e →
       NewIntSorter F ascending a b = Panic e).
Proof.
  intros Ha Hb. unfold NewGenericSorter, NewStringSorter, NewIntSorter.
  rewrite Ha, Hb. simpl. split; [|split].
  - destruct fieldA as [| |[]| []| | | |[]]; simpl; try done.
  - by destruct ascending.
  - intros e ->. done.
Qed.

Lemma mismatched_kind_outcomes_witness :
  reflect.FieldByName (Account "Bob") "Active" = Ok (VOpaque KBool "bool")
  ∧ reflect.FieldByName (Account "Alice") "Active" = Ok (VOpaque KBool "bool")
  ∧ NewGenericSorter "Active" true (Account "Bob") (Account "Alice") = Ok false
  ∧ NewStringSorter "Active" true (Account "Bob") (Account "Alice") = Ok false
  ∧ NewIntSorter "Active" true (Account "Bob") (Account "Alice")
    = Panic (mkValueError "reflect.Value.Int" Bool).
Proof.
  destruct (mismatched_kind_outcomes "Active" true
              (Account "Bob") (Account "Alice")
              (VOpaque KBool "bool") (VOpaque KBool "bool")
              eq_refl eq_refl) as (Hg & Hs & Hi).
  split; [reflexivity|]. split; [reflexivity|]. split; [|split].
  - apply Hg. reflexivity.
  - exact Hs.
  - apply Hi. reflexivity.
Defined.

(** C1 fails on the code as stated: for two different accounts the generic
    comparator on the [bool] field answers [false] both ways, a plain
    boolean and no error; and for a person and a device, whose [Name] is a
    string in one and a number in the other, the string comparators answer
    with a boolean as well. *)
Lemma generic_sorter_silent_default :
  NewGenericSorter "Active" true (Account "Bob") (Account "Alice") = Ok false
  ∧ NewGenericSorter "Active" true (Account "Alice") (Account "Bob") = Ok false
  ∧ NewGenericSorter "Name" true (Person "Alice" 30) (Device 7) = Ok false
  ∧ NewStringSorter "Name" true (Device 7) (Person "Alice" 30) = Ok true.
Proof. repeat split; reflexivity. Qed.

(** C2, as the code has it.  Building never fails: [NewStringSorter] yields
    a comparator for any field name, and whenever [SortByStringField]
    returns, the [error] it returns is [nil].  On structs that have no field
    [F] the comparator reads the zero Value on both sides, so it answers
    [false] for every pair; sorting at most [maxInsertion] such records by
    [F] returns [nil] and leaves the slice as it was.  On a first operand
    that is not a struct, a map for one, the comparator panics in
    [FieldByName]. *)
Theorem unknown_field_outcomes
    (pdqsort : @LessFunc Value → list Value → list Value * Status)
    (F : string) (ascending : bool) (s : list Value) :
  Forall (lacks_field F) s →
  (∀ a b, a ∈ s → b ∈ s → NewStringSorter F ascending a b = Ok false)
  ∧ (length s ≤ maxInsertion →
       SortByStringField pdqsort s F ascending = (s, Ok None))
  ∧ (∀ (s' : list Value) (F' : string) (err : error),
       (SortByStringField pdqsort s' F' ascending).2 = Ok err → err = None)
  ∧ (∀ a b, reflect.Kind a ≠ Struct →
       NewStringSorter F ascending a b
       = Panic (mkValueError "reflect.Value.FieldByName" (reflect.Kind a))).
Proof.
  intros Hs.
  assert (Hless : ∀ a b, lacks_field F a → lacks_field F b →
            NewStringSorter F ascending a b = Ok false).
  { intros a b Ha Hb. unfold NewStringSorter. rewrite Ha, Hb. simpl.
    by destruct ascending. }
  split; [|split; [|split]].
  - rewrite Forall_forall in Hs. intros a b Ha Hb. apply Hless; auto.
  - intros Hlen. unfold SortByStringField.
    rewrite sort_Slice_short by done.
    by rewrite (insertionSortLessFunc_noop (lacks_field F)).
  - intros s' F' err. unfold SortByStringField.
    destruct (sort_Slice _ _ _) as [out [|e]]; simpl; congruence.
  - intros a b Hk. by destruct a.
Qed.

Lemma unknown_field_outcomes_witness :
  Forall (lacks_field "DoesNotExist")
    [Person "Charlie" 35; Person "Alice" 30; Person "Bob" 25]
  ∧ NewStringSorter "DoesNotExist" true (Person "Charlie" 35) (Person "Alice" 30)
    = Ok false
  ∧ SortByStringField insertionSortLessFunc
      [Person "Charlie" 35; Person "Alice" 30; Person "Bob" 25]
      "DoesNotExist" true
    = ([Person "Charlie" 35; Person "Alice" 30; Person "Bob" 25], Ok None)
  ∧ NewStringSorter "DoesNotExist" true
      (VOpaque KMap "map[string]interface {}") (Person "Alice" 30)
    = Panic (mkValueError "reflect.Value.FieldByName" Map).
Proof.
  assert (Hs : Forall (lacks_field "DoesNotExist")
            [Person "Charlie" 35; Person "Alice" 30; Person "Bob" 25]).
  { repeat constructor. }
  destruct (unknown_field_outcomes insertionSortLessFunc "DoesNotExist" true
              _ Hs) as (Hless & Hsort & _ & Hmap).
  split; [exact Hs|]. split; [|split].
  - apply Hless; repeat constructor.
  - apply Hsort. unfold maxInsertion. simpl. lia.
  - by apply (Hmap (VOpaque KMap "map[string]interface {}")).
Defined.

(** C2 fails on the code as stated: asked to sort people by a field they do
    not have, [SortByStringField] returns a [nil] error and
    [NewStringSorter] hands out a comparator, which answers [false]. *)
Lemma unknown_field_no_error :
  SortByStringField insertionSortLessFunc
    [Person "Charlie" 35; Person "Alice" 30; Person "Bob" 25]
    "DoesNotExist" true
  = ([Person "Charlie" 35; Person "Alice" 30; Person "Bob" 25], Ok None)
  ∧ ∃ comparator : Comparator,
      NewStringSorter "DoesNotExist" true = comparator
      ∧ comparator (Person "Alice" 30) (Person "Bob" 25) = Ok false
      ∧ comparator (Person "Bob" 25) (Person "Alice" 30) = Ok false.
Proof. split; [reflexivity|]. eexists. repeat split; reflexivity. Qed.

(** C3, as the code has it.  [NewIntSorter] yields a comparator whatever
    the field holds; nothing is checked when it is built.  On structs whose
    field [F] is a string every evaluation of that comparator panics in
    [Value.Int], and sorting 2 to [maxInsertion] such records with it panics
    at the first comparison, the slice being as it was. *)
Theorem int_sorter_on_string_field
    (pdqsort : @LessFunc Value → list Value → list Value * Status)
    (F : string) (ascending : bool) (s : list Value) :
  Forall (has_field StringField F) s →
  (∀ a b, a ∈ s → b ∈ s →
     NewIntSorter F ascending a b
     = Panic (mkValueError "reflect.Value.Int" String_))
  ∧ (2 ≤ length s ≤ maxInsertion →
       SortWithComparator pdqsort s (NewIntSorter F ascending)
       = (s, Panicked (mkValueError "reflect.Value.Int" String_))).
Proof.
  intros Hs.
  assert (Hless : ∀ a b, has_field StringField F a → has_field StringField F b →
            NewIntSorter F ascending a b
            = Panic (mkValueError "reflect.Value.Int" String_)).
  { intros a b [sa Ha] [sb Hb]. unfold string_key in *. unfold NewIntSorter.
    destruct (reflect.FieldByName a F) as [[]|]; try done.
    by destruct (reflect.FieldByName b F) as [[]|]. }
  split.
  - rewrite Forall_forall in Hs. intros a b Ha Hb. apply Hless; auto.
  - intros [Hlo Hhi]. unfold SortWithComparator.
    rewrite sort_Slice_short by done.
    by apply (insertionSortLessFunc_panics (has_field StringField F)).
Qed.

Lemma int_sorter_on_string_field_witness :
  Forall (has_field StringField "Name")
    [Person "Charlie" 35; Person "Alice" 30; Person "Bob" 25]
  ∧ NewIntSorter "Name" true (Person "Charlie" 35) (Person "Alice" 30)
    = Panic (mkValueError "reflect.Value.Int" String_)
  ∧ SortWithComparator insertionSortLessFunc
      [Person "Charlie" 35; Person "Alice" 30; Person "Bob" 25]
      (NewIntSorter "Name" true)
    = ([Person "Charlie" 35; Person "Alice" 30; Person "Bob" 25],
       Panicked (mkValueError "reflect.Value.Int" String_)).
Proof.
  assert (Hs : Forall (has_field StringField "Name")
            [Person "Charlie" 35; Person "Alice" 30; Person "Bob" 25]).
  { repeat constructor; by eexists. }
  destruct (int_sorter_on_string_field insertionSortLessFunc "Name" true
              _ Hs) as (Hless & Hsort).
  split; [exact Hs|]. split.
  - apply Hless; repeat constructor.
  - apply Hsort. unfold maxInsertion. simpl. lia.
Defined.

(** C3 fails on the code as stated: for the string field [Name] of a
    person, [NewIntSorter] returns a comparator and no error; the mismatch
    shows only when the comparator is called, as a panic. *)
Lemma int_sorter_built_for_string_field :
  ∃ comparator : Comparator,
    NewIntSorter "Name" true = comparator
    ∧ comparator (Person "Alice" 30) (Person "Bob" 25)
      = Panic (mkValueError "reflect.Value.Int" String_).
Proof. eexists. split; reflexivity. Qed.




(** C5.  Let every record of the slice be a struct whose field [F] is a
    string, and let [sort.Slice] keep its contract on long slices.  Sorting
    by [F] in ascending order, with the comparator of [NewStringSorter] or
    of [NewGenericSorter] through [SortWithComparator] or with
    [SortByStringField], returns normally with a [nil] error, and the slice
    afterwards is the slice before rearranged so that the strings under
    [F], read off in slice order, ascend in byte-lexicographic order. *)
Theorem sorted_by_string_field
    (pdqsort : @LessFunc Value → list Value → list Value * Status)
    (F : string) (s : list Value) :
  sort_contract pdqsort →
  Forall (has_field StringField F) s →
  (∃ out, SortWithComparator pdqsort s (NewStringSorter F true) = (out, Done)
          ∧ ascending_by_string F s out)
  ∧ (∃ out, SortWithComparator pdqsort s (NewGenericSorter F true) = (out, Done)
            ∧ ascending_by_string F s out)
  ∧ (∃ out, SortByStringField pdqsort s F true = (out, Ok None)
            ∧ ascending_by_string F s out).
Proof.
  intros Hc HP. split; [|split].
  - apply sort_Slice_by_string; [done| |done].
    intros a b ka kb Ha Hb. by rewrite (NewStringSorter_keys F true a b ka kb).
  - apply sort_Slice_by_string; [done| |done].
    intros a b ka kb Ha Hb.
    by rewrite (NewGenericSorter_string_keys F true a b ka kb).
  - destruct (sort_Slice_by_string pdqsort F (NewStringSorter F true) s)
      as (out & Hout & Hasc); [done| |done|].
    { intros a b ka kb Ha Hb.
      by rewrite (NewStringSorter_keys F true a b ka kb). }
    exists out. split; [|done].
    unfold SortByStringField.
    change (sort_Slice pdqsort s _)
      with (sort_Slice pdqsort s (NewStringSorter F true)).
    by rewrite Hout.
Qed.

Lemma sorted_by_string_field_witness :
  sort_contract (@insertionSortLessFunc Value)
  ∧ Forall (has_field StringField "Name")
      [Person "Charlie" 35; Person "Alice" 30; Person "Bob" 25]
  ∧ ∃ out,
      SortByStringField insertionSortLessFunc
        [Person "Charlie" 35; Person "Alice" 30; Person "Bob" 25] "Name" true
      = (out, Ok None)
      ∧ ascending_by_string "Name"
          [Person "Charlie" 35; Person "Alice" 30; Person "Bob" 25] out.
Proof.
  assert (HP : Forall (has_field StringField "Name")
            [Person "Charlie" 35; Person "Alice" 30; Person "Bob" 25]).
  { repeat constructor; by eexists. }
  split; [apply insertionSortLessFunc_contract|]. split; [exact HP|].
  exact (proj2 (proj2 (sorted_by_string_field insertionSortLessFunc "Name" _
           insertionSortLessFunc_contract HP))).
Defined.

(** C6.  Each comparator a factory returns, ascending or descending, is a
    strict weak ordering on the structs whose field [F] holds a well-formed
    value of the kind the comparator is for: a string for
    [NewStringSorter], an integer for [NewIntSorter], and any one of
    string, integer or float for [NewGenericSorter], a float being well
    formed when it is a number.  On such records every comparison returns,
    the comparator is irreflexive, asymmetric and transitive, and "neither
    is less" is transitive too.  With NaN let in among the floats the
    comparator of [NewGenericSorter] is still irreflexive, asymmetric and
    transitive. *)
Theorem factory_comparators_strict_weak_order (F : string) (ascending : bool) :
  strict_weak_order_on (well_formed StringField F) (NewStringSorter F ascending)
  ∧ strict_weak_order_on (well_formed IntField F) (NewIntSorter F ascending)
  ∧ (∀ c, strict_weak_order_on (well_formed c F)
            (NewGenericSorter F ascending))
  ∧ strict_order_on (has_field FloatField F) (NewGenericSorter F ascending).
Proof.
  split; [|split; [|split; [intros [| |]|]]].
  - apply NewStringSorter_swo.
  - apply (keyed_strict_weak_order (int_key F) int_lt ascending).
    + apply NewIntSorter_keys.
    + apply int_lt_irrefl.
    + apply int_lt_asym.
    + apply int_lt_trans.
    + apply int_lt_negtrans.
  - apply (keyed_strict_weak_order (string_key F) string_lt ascending).
    + apply NewGenericSorter_string_keys.
    + apply string_lt_irrefl.
    + apply string_lt_asym.
    + apply string_lt_trans.
    + apply string_lt_negtrans.
  - apply (keyed_strict_weak_order (int_key F) int_lt ascending).
    + apply NewGenericSorter_int_keys.
    + apply int_lt_irrefl.
    + apply int_lt_asym.
    + apply int_lt_trans.
    + apply int_lt_negtrans.
  - apply (keyed_swo_on (number_key F) is_number float_lt ascending).
    + intros a k Hk. by apply number_key_float_key in Hk as [_ ?].
    + intros a b ka kb [Ha _]%number_key_float_key [Hb _]%number_key_float_key.
      by apply NewGenericSorter_float_keys.
    + intros k _. apply float_lt_irrefl.
    + intros x y _ _. apply float_lt_asym.
    + intros x y z _ _ _. apply float_lt_trans.
    + apply float_lt_negtrans.
  - apply (keyed_strict_order (float_key F) float_lt ascending).
    + apply NewGenericSorter_float_keys.
    + apply float_lt_irrefl.
    + apply float_lt_asym.
    + apply float_lt_trans.
Qed.

(** The order of C6 at work on three people, by age and descending:
    35 before 30 and 30 before 25, hence 35 before 25 and not the other
    way round; and on three products by price: the mouse is not before the
    keyboard, nor the keyboard before the laptop, hence the mouse is not
    before the laptop. *)
Lemma factory_comparators_strict_weak_order_witness :
  NewIntSorter "Age" false (Person "Charlie" 35) (Person "Bob" 25) = Ok true
  ∧ NewIntSorter "Age" false (Person "Bob" 25) (Person "Charlie" 35)
    = Ok false
  ∧ NewGenericSorter "Price" false (ValueOf_Product Mouse)
      (ValueOf_Product Laptop) = Ok false.
Proof.
  assert (Hc : well_formed IntField "Age" (Person "Charlie" 35)) by by eexists.
  assert (Ha : well_formed IntField "Age" (Person "Alice" 30)) by by eexists.
  assert (Hb : well_formed IntField "Age" (Person "Bob" 25)) by by eexists.
  assert (Hm : well_formed FloatField "Price" (ValueOf_Product Mouse))
    by by eexists.
  assert (Hk : well_formed FloatField "Price" (ValueOf_Product Keyboard))
    by by eexists.
  assert (Hl : well_formed FloatField "Price" (ValueOf_Product Laptop))
    by by eexists.
  destruct (factory_comparators_strict_weak_order "Age" false)
    as (_ & Hint & _).
  destruct (factory_comparators_strict_weak_order "Price" false)
    as (_ & _ & Hgen & _).
  assert (Hcb : NewIntSorter "Age" false (Person "Charlie" 35) (Person "Bob" 25)
                = Ok true).
  { by apply (swo_trans _ _ Hint _ (Person "Alice" 30)). }
  split; [exact Hcb|]. split.
  - by apply (swo_asym _ _ Hint).
  - by apply (swo_negtrans _ _ (Hgen FloatField) _ (ValueOf_Product Keyboard)).
Defined.

(** Why the floats of C6 have to be numbers: with NaN for a price,
    "neither is less" is no longer transitive.  A product at 1 and one at
    NaN are not less than each other, nor are the one at NaN and one at 0;
    yet the one at 0 is less than the one at 1.  Package sort promises
    nothing for such a comparator. *)
Lemma generic_sorter_on_NaN :
  let price (f : spec_float) := ValueOf_Product (mkProduct "p" f) in
  let one := S754_finite false 4503599627370496 (-52) in
  let less := NewGenericSorter "Price" true in
  has_field FloatField "Price" (price S754_nan)
  ∧ less (price (S754_zero false)) (price S754_nan) = Ok false
  ∧ less (price S754_nan) (price one) = Ok false
  ∧ less (price (S754_zero false)) (price one) = Ok true
  ∧ ¬ strict_weak_order_on (has_field FloatField "Price") less.
Proof.
  intros price one less.
  assert (Hn : has_field FloatField "Price" (price S754_nan)) by by eexists.
  split; [exact Hn|]. split; [reflexivity|]. split; [reflexivity|].
  split; [reflexivity|].
  intros Hswo.
  assert (H : less (price (S754_zero false)) (price one) = Ok false).
  { apply (swo_negtrans _ _ Hswo _ (price S754_nan)); try done; by eexists. }
  done.
Qed.

(** C7, as the code has it.  The comparators do not look behind a pointer.
    On structs whose field [F] is a pointer of one type, nil or not, the
    comparators of [NewStringSorter] and [NewGenericSorter] answer [false]
    for every pair, in both directions of sorting; sorting at most
    [maxInsertion] such records with either leaves them in the order they
    came in, wherever the records without a value stand. *)
Theorem pointer_field_outcomes
    (pdqsort : @LessFunc Value → list Value → list Value * Status)
    (F ty : string) (ascending : bool) (s : list Value) :
  Forall (pointer_field F ty) s →
  (∀ a b, a ∈ s → b ∈ s →
     NewStringSorter F ascending a b = Ok false
     ∧ NewGenericSorter F ascending a b = Ok false)
  ∧ (length s ≤ maxInsertion →
       SortWithComparator pdqsort s (NewStringSorter F ascending) = (s, Done)
       ∧ SortWithComparator pdqsort s (NewGenericSorter F ascending) = (s, Done)).
Proof.
  intros Hs.
  assert (Hstr : ∀ a b, pointer_field F ty a → pointer_field F ty b →
            NewStringSorter F ascending a b = Ok false).
  { intros a b [ta Ha] [tb Hb]. unfold NewStringSorter. rewrite Ha, Hb. simpl.
    rewrite string_lt_irrefl. by destruct ascending. }
  assert (Hgen : ∀ a b, pointer_field F ty a → pointer_field F ty b →
            NewGenericSorter F ascending a b = Ok false).
  { intros a b [ta Ha] [tb Hb]. unfold NewGenericSorter. by rewrite Ha, Hb. }
  split.
  - rewrite Forall_forall in Hs. intros a b Ha Hb. split; auto.
  - intros Hlen. unfold SortWithComparator.
    rewrite !sort_Slice_short by done. split.
    + by apply (insertionSortLessFunc_noop (pointer_field F ty)).
    + by apply (insertionSortLessFunc_noop (pointer_field F ty)).
Qed.

Lemma pointer_field_outcomes_witness :
  Forall (pointer_field "Nickname" "*string")
    [Member "Ann" None; Member "Bob" (Some "bobby")]
  ∧ NewStringSorter "Nickname" false
      (Member "Ann" None) (Member "Bob" (Some "bobby")) = Ok false
  ∧ SortWithComparator insertionSortLessFunc
      [Member "Ann" None; Member "Bob" (Some "bobby")]
      (NewGenericSorter "Nickname" false)
    = ([Member "Ann" None; Member "Bob" (Some "bobby")], Done).
Proof.
  assert (Hs : Forall (pointer_field "Nickname" "*string")
            [Member "Ann" None; Member "Bob" (Some "bobby")]).
  { repeat constructor; by eexists. }
  destruct (pointer_field_outcomes insertionSortLessFunc "Nickname" "*string"
              false _ Hs) as (Hless & Hsort).
  split; [exact Hs|]. split.
  - apply Hless; repeat constructor.
  - apply Hsort. unfold maxInsertion. simpl. lia.
Defined.

(** C7 fails on the code as stated: Ann has no nickname, Bob has one, and
    after sorting by nickname, ascending or descending, with the string or
    the generic comparator, Ann still stands before Bob. *)
Lemma missing_value_not_last :
  SortWithComparator insertionSortLessFunc
    [Member "Ann" None; Member "Bob" (Some "bobby")]
    (NewStringSorter "Nickname" true)
  = ([Member "Ann" None; Member "Bob" (Some "bobby")], Done)
  ∧ SortWithComparator insertionSortLessFunc
      [Member "Ann" None; Member "Bob" (Some "bobby")]
      (NewStringSorter "Nickname" false)
    = ([Member "Ann" None; Member "Bob" (Some "bobby")], Done)
  ∧ SortWithComparator insertionSortLessFunc
      [Member "Ann" None; Member "Bob" (Some "bobby")]
      (NewGenericSorter "Nickname" true)
    = ([Member "Ann" None; Member "Bob" (Some "bobby")], Done)
  ∧ SortWithComparator insertionSortLessFunc
      [Member "Ann" None; Member "Bob" (Some "bobby")]
      (NewGenericSorter "Nickname" false)
    = ([Member "Ann" None; Member "Bob" (Some "bobby")], Done).
Proof. repeat split; reflexivity. Qed.

(** C9.  Whatever the heap a list starts in, after pushing [vs] onto the
    empty [List] one after the other: [AllElements] returns [vs], the
    values in the order they were pushed; a loop over [All] computes what
    the same loop over that slice computes, early exit included; and
    collecting [All] without ever stopping gives [vs] again. *)
Theorem All_agrees_with_AllElements {T : Type} (h0 : heap T) (vs : list T) :
  let st := foldl Push (h0, emptyList) vs in
  AllElements st.1 st.2 = Some vs
  ∧ (∀ (St : Type) (yield : T → St → St * bool) (s : St),
       All st.1 st.2 St yield s = Some (range_slice vs yield s))
  ∧ Collect (All st.1 st.2) = AllElements st.1 st.2.
Proof.
  intros st.
  pose proof (pushes_is_list vs h0 emptyList [] (is_list_empty h0)) as Hl.
  fold st in Hl. simpl in Hl. destruct Hl as (ls & Hnd & Hc & _).
  pose proof (chain_bound _ _ _ _ Hnd Hc) as Hb.
  assert (HA : AllElements st.1 st.2 = Some vs).
  { unfold AllElements.
    rewrite (chain_AllElements_loop _ ls _ vs); [done|done|lia]. }
  assert (HI : ∀ (St : Type) (yield : T → St → St * bool) (s : St),
       All st.1 st.2 St yield s = Some (range_slice vs yield s)).
  { intros St yield s. unfold All.
    apply (chain_All_loop _ ls); [done|lia]. }
  split; [done|]. split; [done|].
  unfold Collect. rewrite HI, HA. f_equal. apply range_slice_collect.
Qed.

(** * Further properties of the code *)

(** ** [SlicesIndex] *)

Section SlicesIndexFacts.

Context {E : Type} (equal : E → E → bool).

Lemma SlicesIndex_from_absent (s : list E) (v : E) : ∀ i : Z,
  (0 ≤ i)%Z →
  SlicesIndex_from equal i s v = (-1)%Z ↔ Forall (λ x, equal v x = false) s.
Proof.
  induction s as [|x s IH]; intros i Hi; cbn [SlicesIndex_from].
  - split; [constructor|done].
  - rewrite Forall_cons. destruct (equal v x) eqn:Hx.
    + split; [lia|]. by intros [? _].
    + rewrite IH by lia. split; [by split|by intros [_ ?]].
Qed.

Lemma SlicesIndex_from_first (s : list E) (v : E) : ∀ (i : Z) (n : nat) (x : E),
  s !! n = Some x → equal v x = true →
  (∀ m y, m < n → s !! m = Some y → equal v y = false) →
  SlicesIndex_from equal i s v = (i + Z.of_nat n)%Z.
Proof.
  induction s as [|x0 s IH]; intros i n x Hn Hx Hbefore; [done|].
  cbn [SlicesIndex_from]. destruct n as [|n].
  - injection Hn as ->. rewrite Hx. lia.
  - rewrite (Hbefore 0 x0) by (done || lia).
    rewrite (IH (i + 1)%Z n x); [lia|done|done|].
    intros m y Hm Hy. apply (Hbefore (S m) y); [lia|done].
Qed.

End SlicesIndexFacts.

(** X1.  [SlicesIndex] returns -1 exactly when no element of the slice
    compares equal to [v]; on the empty slice in particular. *)
Theorem SlicesIndex_absent {E : Type} (equal : E → E → bool)
    (s : list E) (v : E) :
  SlicesIndex equal s v = (-1)%Z ↔ Forall (λ x, equal v x = false) s.
Proof. by apply SlicesIndex_from_absent. Qed.

(** X2.  When the element at index [n] compares equal to [v] and no
    element before it does, [SlicesIndex] returns [n]: the index of the
    first occurrence. *)
Theorem SlicesIndex_first_occurrence {E : Type} (equal : E → E → bool)
    (s : list E) (v : E) (n : nat) (x : E) :
  s !! n = Some x → equal v x = true →
  (∀ m y, m < n → s !! m = Some y → equal v y = false) →
  SlicesIndex equal s v = Z.of_nat n.
Proof.
  intros Hn Hx Hbefore. unfold SlicesIndex.
  by rewrite (SlicesIndex_from_first equal s v 0 n x).
Qed.

Lemma SlicesIndex_first_occurrence_witness :
  ["foo"; "zoo"; "bar"; "zoo"] !! 1 = Some "zoo"
  ∧ String.eqb "zoo" "zoo" = true
  ∧ SlicesIndex String.eqb ["foo"; "zoo"; "bar"; "zoo"] "zoo" = 1%Z.
Proof.
  split; [reflexivity|]. split; [reflexivity|].
  apply (SlicesIndex_first_occurrence String.eqb _ "zoo" 1 "zoo");
    [reflexivity|reflexivity|].
  intros [|m] y Hm Hy; [|lia]. by injection Hy as <-.
Defined.

(** ** [genFib] *)

Section FibFacts.

Lemma fib_SS (n : nat) : fib (S (S n)) = (fib n + fib (S n))%Z.
Proof. reflexivity. Qed.

Lemma fib_nonneg (n : nat) : (0 ≤ fib n)%Z ∧ (0 ≤ fib (S n))%Z.
Proof.
  induction n as [|n [IH1 IH2]]; [simpl; lia|].
  split; [done|]. rewrite fib_SS. lia.
Qed.

Lemma fib_mono_S (n : nat) : (fib n ≤ fib (S n))%Z.
Proof.
  destruct n as [|n]; [simpl; lia|]. rewrite fib_SS.
  pose proof (fib_nonneg n). lia.
Qed.

Lemma fib_mono (n m : nat) : n ≤ m → (fib n ≤ fib m)%Z.
Proof.
  induction 1 as [|m _ IH]; [lia|]. pose proof (fib_mono_S m). lia.
Qed.

(** The pair of two successive Fibonacci numbers, by iteration. *)
Lemma fib_iter (n : nat) :
  Nat.iter n (λ p : Z * Z, (p.2, (p.1 + p.2)%Z)) (0%Z, 1%Z)
  = (fib n, fib (S n)).
Proof.
  induction n as [|n IH]; [done|].
  cbn [Nat.iter nat_rect]. change (nat_rect _ _ _ n) with
    (Nat.iter n (λ p : Z * Z, (p.2, (p.1 + p.2)%Z)) (0%Z, 1%Z)).
  by rewrite IH.
Qed.

Lemma fib_92_93 :
  fib 92 = 7540113804746346429%Z ∧ fib 93 = 12200160415121876738%Z.
Proof.
  assert (H : Nat.iter 92 (λ p : Z * Z, (p.2, (p.1 + p.2)%Z)) (0%Z, 1%Z)
              = (7540113804746346429%Z, 12200160415121876738%Z))
    by (vm_compute; reflexivity).
  rewrite fib_iter in H. by apply pair_equal_spec in H.
Qed.

Lemma wrap_int_small (z : Z) :
  (- 2 ^ 63 ≤ z < 2 ^ 63)%Z → wrap_int z = z.
Proof. intros Hz. unfold wrap_int. rewrite Z.mod_small; lia. Qed.

Lemma wrap_int_add (x y : Z) :
  wrap_int (wrap_int x + wrap_int y) = wrap_int (x + y).
Proof.
  unfold wrap_int. f_equal.
  rewrite (Z.mod_eq (x + 2 ^ 63) (2 ^ 64)), (Z.mod_eq (y + 2 ^ 63) (2 ^ 64))
    by lia.
  replace (x + 2 ^ 63 - 2 ^ 64 * ((x + 2 ^ 63) / 2 ^ 64) - 2 ^ 63
           + (y + 2 ^ 63 - 2 ^ 64 * ((y + 2 ^ 63) / 2 ^ 64) - 2 ^ 63)
           + 2 ^ 63)%Z
    with (x + y + 2 ^ 63
          + (- ((x + 2 ^ 63) / 2 ^ 64) - (y + 2 ^ 63) / 2 ^ 64) * 2 ^ 64)%Z
    by lia.
  apply Z.mod_add. lia.
Qed.

Lemma wrap_int_fib (k : nat) : k ≤ 92 → wrap_int (fib k) = fib k.
Proof.
  intros Hk. apply wrap_int_small.
  pose proof (fib_mono k 92 Hk). destruct (fib_nonneg k) as [? _].
  destruct fib_92_93 as [H92 _]. lia.
Qed.

(** Round after round, [a] and [b] are two successive Fibonacci numbers
    as an [int] holds them. *)
Lemma genFib_loop_slice {St : Type} (yield : Z → St → St * bool) :
  ∀ (n k fuel : nat) (s : St),
  n ≤ fuel →
  breaks (wrap_int ∘ fib <$> seq k n) yield s = true →
  genFib_loop fuel (wrap_int (fib k)) (wrap_int (fib (S k))) yield s
  = Some (range_slice (wrap_int ∘ fib <$> seq k n) yield s).
Proof.
  induction n as [|n IH]; intros k fuel s Hfuel Hbreak; [done|].
  destruct fuel as [|fuel]; [lia|].
  cbn [seq fmap list_fmap breaks range_slice genFib_loop] in *.
  change ((wrap_int ∘ fib) k) with (wrap_int (fib k)) in *.
  destruct (yield (wrap_int (fib k)) s) as [s' [|]]; [|done].
  unfold int_add. rewrite wrap_int_add, <- fib_SS.
  apply IH; [lia|done].
Qed.

Lemma genFib_loop_rounds {St : Type} (yield : Z → St → St * bool) :
  ∀ (n k fuel : nat) (s : St),
  breaks (wrap_int ∘ fib <$> seq k n) yield s = false →
  genFib_loop (n + fuel) (wrap_int (fib k)) (wrap_int (fib (S k))) yield s
  = genFib_loop fuel (wrap_int (fib (k + n))) (wrap_int (fib (S (k + n))))
      yield (range_slice (wrap_int ∘ fib <$> seq k n) yield s).
Proof.
  induction n as [|n IH]; intros k fuel s Hbreak.
  - by rewrite Nat.add_0_r.
  - cbn [seq fmap list_fmap breaks range_slice genFib_loop Nat.add] in *.
    change ((wrap_int ∘ fib) k) with (wrap_int (fib k)) in *.
    destruct (yield (wrap_int (fib k)) s) as [s' [|]]; [|done].
    unfold int_add. rewrite wrap_int_add, <- fib_SS.
    rewrite IH by done. by replace (k + S n) with (S k + n) by lia.
Qed.

Lemma fib_seq_exact (k n : nat) :
  k + n ≤ 93 → wrap_int ∘ fib <$> seq k n = fib <$> seq k n.
Proof.
  intros Hk. apply list_fmap_ext. intros i x Hx.
  apply lookup_seq in Hx as [-> Hi]. unfold compose.
  by rewrite wrap_int_fib by lia.
Qed.

End FibFacts.

Section GenFibFacts.

Lemma take_first_range {T : Type} (n : nat) (xs : list T) : ∀ acc : list T,
  xs ≠ [] → length acc + length xs = n →
  breaks xs (take_first n) acc = true
  ∧ range_slice xs (take_first n) acc = acc ++ xs.
Proof.
  induction xs as [|x xs IH]; intros acc Hne Hlen; [done|].
  cbn [breaks range_slice take_first]. simpl in Hlen.
  destruct (S (length acc) <? n) eqn:Hlt.
  - apply Nat.ltb_lt in Hlt. destruct xs as [|x' xs]; [simpl in *; lia|].
    destruct (IH (acc ++ [x])) as [Hb Hr]; [done|rewrite length_app; simpl in *; lia|].
    rewrite Hb, Hr. by rewrite <- app_assoc.
  - apply Nat.ltb_ge in Hlt. destruct xs as [|x' xs]; [done|simpl in *; lia].
Qed.

Lemma print_below_range (bound : Z) (xs : list Z) : ∀ printed : list Z,
  Exists (λ x, (bound ≤ x)%Z) xs →
  ∃ j x, xs !! j = Some x ∧ (bound ≤ x)%Z
         ∧ Forall (λ y, (y < bound)%Z) (take j xs)
         ∧ breaks xs (print_below bound) printed = true
         ∧ range_slice xs (print_below bound) printed = printed ++ take j xs.
Proof.
  induction xs as [|x xs IH]; intros printed Hex.
  - by apply Exists_nil in Hex.
  - cbn [breaks range_slice]. unfold print_below at 1 3.
    destruct (bound <=? x)%Z eqn:Hx.
    + apply Z.leb_le in Hx. exists 0, x.
      split; [done|]. split; [done|]. split; [constructor|].
      split; [done|]. by rewrite app_nil_r.
    + apply Z.leb_gt in Hx. apply Exists_cons in Hex as [Hex|Hex]; [lia|].
      destruct (IH (printed ++ [x]) Hex) as (j & y & Hj & Hy & Hall & Hb & Hr).
      exists (S j), y. split; [done|]. split; [done|].
      split; [by constructor|]. split; [done|].
      rewrite Hr. by rewrite <- app_assoc.
Qed.

Lemma genFib_from_start {St : Type} (yield : Z → St → St * bool)
    (n fuel : nat) (s : St) :
  n ≤ fuel →
  breaks (wrap_int ∘ fib <$> seq 1 n) yield s = true →
  genFib fuel St yield s
  = Some (range_slice (wrap_int ∘ fib <$> seq 1 n) yield s).
Proof.
  intros Hfuel Hbreak. unfold genFib.
  rewrite <- (genFib_loop_slice yield n 1 fuel s Hfuel Hbreak).
  by rewrite !wrap_int_fib by lia.
Qed.

End GenFibFacts.

(** X3.  A loop over [genFib()] that breaks within the first [n] values
    ends, and computes what the same loop computes over the slice of the
    first [n] Fibonacci numbers as an [int] holds them, that is, modulo
    2^64. *)
Theorem genFib_as_slice {St : Type} (yield : Z → St → St * bool)
    (n fuel : nat) (s : St) :
  n ≤ fuel →
  breaks (wrap_int ∘ fib <$> seq 1 n) yield s = true →
  genFib fuel St yield s
  = Some (range_slice (wrap_int ∘ fib <$> seq 1 n) yield s).
Proof. apply genFib_from_start. Qed.

Lemma genFib_as_slice_witness :
  7 ≤ 7
  ∧ breaks (wrap_int ∘ fib <$> seq 1 7) (print_below 10) [] = true
  ∧ genFib 7 (list Z) (print_below 10) [] = Some [1; 1; 2; 3; 5; 8]%Z.
Proof.
  split; [lia|]. split; [reflexivity|].
  exact (genFib_as_slice (print_below 10) 7 7 [] (le_n 7) eq_refl).
Defined.

(** X4.  The first 92 values of [genFib()] are the Fibonacci numbers
    themselves: a loop that takes [n] values, [n] from 1 to 92, has seen
    [fib 1], ..., [fib n]. *)
Theorem genFib_first_values (n fuel : nat) :
  1 ≤ n ≤ 92 → n ≤ fuel →
  genFib fuel (list Z) (take_first n) [] = Some (fib <$> seq 1 n).
Proof.
  intros [Hn1 Hn92] Hfuel.
  destruct (take_first_range n (wrap_int ∘ fib <$> seq 1 n) []) as [Hb Hr].
  { destruct n; [lia|done]. }
  { by rewrite length_fmap, length_seq. }
  rewrite (genFib_from_start (take_first n) n fuel [] Hfuel Hb), Hr.
  by rewrite fib_seq_exact by lia.
Qed.

Lemma genFib_first_values_witness :
  1 ≤ 6 ≤ 92 ∧ 6 ≤ 10
  ∧ genFib 10 (list Z) (take_first 6) [] = Some [1; 1; 2; 3; 5; 8]%Z.
Proof.
  split; [lia|]. split; [lia|].
  apply (genFib_first_values 6 10); lia.
Defined.

(** X5.  The 93rd value of [genFib()] has overflowed: a loop that takes 93
    values has seen [fib 1], ..., [fib 92] and then [fib 93 - 2^64], a
    negative number. *)
Theorem genFib_overflow (fuel : nat) :
  93 ≤ fuel →
  genFib fuel (list Z) (take_first 93) []
  = Some ((fib <$> seq 1 92) ++ [-6246583658587674878]%Z).
Proof.
  intros Hfuel.
  assert (Hlast : wrap_int (fib 93) = (-6246583658587674878)%Z).
  { destruct fib_92_93 as [_ ->]. by vm_compute. }
  destruct (take_first_range 93 (wrap_int ∘ fib <$> seq 1 93) []) as [Hb Hr].
  { intros Hnil. apply (f_equal length) in Hnil.
    by rewrite length_fmap, length_seq in Hnil. }
  { by rewrite length_fmap, length_seq. }
  rewrite (genFib_from_start (take_first 93) 93 fuel [] Hfuel Hb), Hr.
  change (seq 1 93) with (seq 1 (92 + 1)).
  rewrite (seq_app 92 1 1), fmap_app, fib_seq_exact by lia.
  cbn [seq fmap list_fmap Nat.add compose app]. by rewrite Hlast.
Qed.

Lemma genFib_overflow_witness :
  93 ≤ 93
  ∧ genFib 93 (list Z) (take_first 93) []
    = Some ((fib <$> seq 1 92) ++ [-6246583658587674878]%Z).
Proof. split; [lia|]. exact (genFib_overflow 93 (le_n 93)). Defined.

(** X6.  The loop of [main] with any bound up to [fib 92] in place of 10:
    it ends, having printed [fib 1], ..., [fib k] for some [k]; all of
    them are below the bound, and the next Fibonacci number is not. *)
Theorem genFib_print_below (bound : Z) (fuel : nat) :
  (bound ≤ fib 92)%Z → 92 ≤ fuel →
  ∃ k, genFib fuel (list Z) (print_below bound) [] = Some (fib <$> seq 1 k)
       ∧ Forall (λ y, (y < bound)%Z) (fib <$> seq 1 k)
       ∧ (bound ≤ fib (S k))%Z.
Proof.
  intros Hbound Hfuel.
  destruct (print_below_range bound (fib <$> seq 1 92) [])
    as (j & x & Hj & Hx & Hall & Hb & Hr).
  { apply Exists_exists. exists (fib 92). split; [|done].
    apply list_elem_of_fmap_2, elem_of_seq. lia. }
  apply list_lookup_fmap_Some in Hj as (i & -> & Hi).
  apply lookup_seq in Hi as [-> Hj].
  rewrite <- fmap_take, take_seq in Hall, Hr.
  replace (j `min` 92) with j in * by lia.
  exists j. split; [|done].
  rewrite <- (fib_seq_exact 1 92) in Hb, Hr by lia.
  rewrite (genFib_from_start (print_below bound) 92 fuel [] Hfuel Hb).
  by rewrite Hr.
Qed.

Lemma genFib_print_below_witness :
  (10 ≤ fib 92)%Z ∧ 92 ≤ 92
  ∧ ∃ k, genFib 92 (list Z) (print_below 10) [] = Some (fib <$> seq 1 k)
         ∧ Forall (λ y, (y < 10)%Z) (fib <$> seq 1 k)
         ∧ (10 ≤ fib (S k))%Z.
Proof.
  assert (H : (10 ≤ fib 92)%Z) by (destruct fib_92_93 as [-> _]; lia).
  split; [exact H|]. split; [lia|].
  exact (genFib_print_below 10 92 H (le_n 92)).
Defined.

(** ** Sorting by integers, floats and descending strings *)

(** X7.  Let every record of the slice be a struct whose field [F] is an
    integer, and let [sort.Slice] keep its contract on long slices.
    Sorting by [F] with [SortByIntField], or with the comparator of
    [NewIntSorter] or [NewGenericSorter] through [SortWithComparator],
    returns normally, with a [nil] error, and rearranges the slice so that
    the integers under [F] never decrease when [ascending] and never
    increase when not. *)
Theorem sorted_by_int_field
    (pdqsort : @LessFunc Value → list Value → list Value * Status)
    (F : string) (ascending : bool) (s : list Value) :
  sort_contract pdqsort →
  Forall (has_field IntField F) s →
  (∃ out, SortByIntField pdqsort s F ascending = (out, Ok None)
          ∧ sorted_by (int_key F) (if ascending then Z.le else Z.ge) s out)
  ∧ (∃ out, SortWithComparator pdqsort s (NewIntSorter F ascending)
            = (out, Done)
            ∧ sorted_by (int_key F) (if ascending then Z.le else Z.ge) s out)
  ∧ (∃ out, SortWithComparator pdqsort s (NewGenericSorter F ascending)
            = (out, Done)
            ∧ sorted_by (int_key F) (if ascending then Z.le else Z.ge) s out).
Proof.
  intros Hc HP.
  assert (Hint : ∃ out,
            sort_Slice pdqsort s (NewIntSorter F ascending) = (out, Done)
            ∧ sorted_by (int_key F) (if ascending then Z.le else Z.ge) s out).
  { apply sorted_by_intro, sort_Slice_by_int_key; [done| |done].
    apply NewIntSorter_keys. }
  split; [|split].
  - destruct Hint as (out & Hout & Hs). exists out. split; [|done].
    unfold SortByIntField.
    change (sort_Slice pdqsort s _)
      with (sort_Slice pdqsort s (NewIntSorter F ascending)).
    by rewrite Hout.
  - done.
  - apply sorted_by_intro, sort_Slice_by_int_key; [done| |done].
    apply NewGenericSorter_int_keys.
Qed.

Lemma sorted_by_int_field_witness :
  sort_contract (@insertionSortLessFunc Value)
  ∧ Forall (has_field IntField "Age")
      [Person "Charlie" 35; Person "Alice" 30; Person "Bob" 25]
  ∧ ∃ out,
      SortByIntField insertionSortLessFunc
        [Person "Charlie" 35; Person "Alice" 30; Person "Bob" 25] "Age" false
      = (out, Ok None)
      ∧ sorted_by (int_key "Age") Z.ge
          [Person "Charlie" 35; Person "Alice" 30; Person "Bob" 25] out.
Proof.
  assert (HP : Forall (has_field IntField "Age")
            [Person "Charlie" 35; Person "Alice" 30; Person "Bob" 25]).
  { repeat constructor; by eexists. }
  split; [apply insertionSortLessFunc_contract|]. split; [exact HP|].
  exact (proj1 (sorted_by_int_field insertionSortLessFunc "Age" false _
           insertionSortLessFunc_contract HP)).
Defined.

(** X8.  Let every record of the slice be a struct whose field [F] is a
    float other than NaN, and let [sort.Slice] keep its contract on long
    slices.  Sorting by [F] with [SortByFloatField], or with the comparator
    of [NewGenericSorter] through [SortWithComparator], returns normally
    and rearranges the slice so that the floats under [F] never decrease
    when [ascending] and never increase when not. *)
Theorem sorted_by_float_field
    (pdqsort : @LessFunc Value → list Value → list Value * Status)
    (F : string) (ascending : bool) (s : list Value) :
  sort_contract pdqsort →
  Forall (λ a, ∃ f, float_key F a = Some f ∧ is_number f) s →
  (∃ out, SortByFloatField pdqsort s F ascending = (out, Ok None)
          ∧ sorted_by (float_key F)
              (if ascending then float_le else flip float_le) s out)
  ∧ (∃ out, SortWithComparator pdqsort s (NewGenericSorter F ascending)
            = (out, Done)
            ∧ sorted_by (float_key F)
                (if ascending then float_le else flip float_le) s out).
Proof.
  intros Hc HP.
  assert (Hgen : ∀ less : Comparator,
    (∀ a b ka kb, float_key F a = Some ka → float_key F b = Some kb →
       less a b = Ok (directed float_lt ascending ka kb)) →
    ∃ out, sort_Slice pdqsort s less = (out, Done)
           ∧ sorted_by (float_key F)
               (if ascending then float_le else flip float_le) s out).
  { intros less Hless.
    destruct (sort_Slice_by_number_key pdqsort Hc F ascending less s Hless HP)
      as (out & keys & Hout & Hperm & Hk & _ & Hs).
    exists out. split; [done|]. split; [done|]. exists keys. split; [done|].
    eapply StronglySorted_weaken; [|done].
    unfold directed, float_le, flip. by destruct ascending. }
  split.
  - destruct (Hgen _ (float_closure_keys F ascending)) as (out & Hout & Hs).
    exists out. split; [|done]. unfold SortByFloatField. by rewrite Hout.
  - apply Hgen, NewGenericSorter_float_keys.
Qed.

Lemma sorted_by_float_field_witness :
  sort_contract (@insertionSortLessFunc Value)
  ∧ Forall (λ a, ∃ f, float_key "Price" a = Some f ∧ is_number f)
      (ValueOf_Product <$> [Laptop; Mouse; Keyboard])
  ∧ ∃ out,
      SortByFloatField insertionSortLessFunc
        (ValueOf_Product <$> [Laptop; Mouse; Keyboard]) "Price" false
      = (out, Ok None)
      ∧ sorted_by (float_key "Price") (flip float_le)
          (ValueOf_Product <$> [Laptop; Mouse; Keyboard]) out.
Proof.
  assert (HP : Forall (λ a, ∃ f, float_key "Price" a = Some f ∧ is_number f)
            (ValueOf_Product <$> [Laptop; Mouse; Keyboard])).
  { repeat constructor; by eexists. }
  split; [apply insertionSortLessFunc_contract|]. split; [exact HP|].
  exact (proj1 (sorted_by_float_field insertionSortLessFunc "Price" false _
           insertionSortLessFunc_contract HP)).
Defined.

(** X9.  Let every record of the slice be a struct whose field [F] is a
    string, and let [sort.Slice] keep its contract on long slices.
    Sorting by [F] in descending order, with [SortByStringField] or with
    the comparator of [NewStringSorter] or [NewGenericSorter] through
    [SortWithComparator], returns normally and rearranges the slice so
    that the strings under [F] descend in byte-lexicographic order. *)
Theorem sorted_by_string_field_descending
    (pdqsort : @LessFunc Value → list Value → list Value * Status)
    (F : string) (s : list Value) :
  sort_contract pdqsort →
  Forall (has_field StringField F) s →
  (∃ out, SortByStringField pdqsort s F false = (out, Ok None)
          ∧ sorted_by (string_key F) (flip bytes_le) s out)
  ∧ (∃ out, SortWithComparator pdqsort s (NewStringSorter F false)
            = (out, Done)
            ∧ sorted_by (string_key F) (flip bytes_le) s out)
  ∧ (∃ out, SortWithComparator pdqsort s (NewGenericSorter F false)
            = (out, Done)
            ∧ sorted_by (string_key F) (flip bytes_le) s out).
Proof.
  intros Hc HP.
  assert (Hstr : ∃ out,
            sort_Slice pdqsort s (NewStringSorter F false) = (out, Done)
            ∧ sorted_by (string_key F) (flip bytes_le) s out).
  { apply sorted_by_intro.
    apply (sort_Slice_by_string_key pdqsort Hc F false); [|done].
    apply NewStringSorter_keys. }
  split; [|split].
  - destruct Hstr as (out & Hout & Hs). exists out. split; [|done].
    unfold SortByStringField.
    change (sort_Slice pdqsort s _)
      with (sort_Slice pdqsort s (NewStringSorter F false)).
    by rewrite Hout.
  - done.
  - apply sorted_by_intro.
    apply (sort_Slice_by_string_key pdqsort Hc F false); [|done].
    apply NewGenericSorter_string_keys.
Qed.

Lemma sorted_by_string_field_descending_witness :
  sort_contract (@insertionSortLessFunc Value)
  ∧ Forall (has_field StringField "Name")
      (ValueOf_Product <$> [Laptop; Mouse; Keyboard])
  ∧ ∃ out,
      SortByStringField insertionSortLessFunc
        (ValueOf_Product <$> [Laptop; Mouse; Keyboard]) "Name" false
      = (out, Ok None)
      ∧ sorted_by (string_key "Name") (flip bytes_le)
          (ValueOf_Product <$> [Laptop; Mouse; Keyboard]) out.
Proof.
  assert (HP : Forall (has_field StringField "Name")
            (ValueOf_Product <$> [Laptop; Mouse; Keyboard])).
  { repeat constructor; by eexists. }
  split; [apply insertionSortLessFunc_contract|]. split; [exact HP|].
  exact (proj1 (sorted_by_string_field_descending insertionSortLessFunc
           "Name" _ insertionSortLessFunc_contract HP)).
Defined.

(** ** The sorters written out for one type *)

Section TypedSorterFacts.

Lemma insertionSort_inner_fmap {A B : Type} (f : A → B)
    (less : @LessFunc A) (less' : @LessFunc B) (x : A) (before : list A) :
  (∀ x y, less' (f x) (f y) = less x y) →
  insertionSort_inner less' (f x) (f <$> before)
  = prod_map (fmap f) id (insertionSort_inner less x before).
Proof.
  intros Hless. induction before as [|y before IH]; [done|].
  rewrite fmap_cons. cbn [insertionSort_inner]. rewrite Hless.
  destruct (less x y) as [[|]|e]; [|done|done].
  rewrite IH. by destruct (insertionSort_inner less x before).
Qed.

Lemma insertionSort_outer_fmap {A B : Type} (f : A → B)
    (less : @LessFunc A) (less' : @LessFunc B) (rest : list A) :
  (∀ x y, less' (f x) (f y) = less x y) →
  ∀ sorted,
  insertionSort_outer less' (f <$> sorted) (f <$> rest)
  = prod_map (fmap f) id (insertionSort_outer less sorted rest).
Proof.
  intros Hless. induction rest as [|x rest IH]; intros sorted.
  - cbn. by rewrite fmap_reverse.
  - rewrite fmap_cons. cbn [insertionSort_outer].
    rewrite (insertionSort_inner_fmap f less less') by done.
    destruct (insertionSort_inner less x sorted) as [sorted' [|e]]; cbn.
    + apply IH.
    + by rewrite fmap_app, fmap_reverse.
Qed.

Lemma insertionSortLessFunc_fmap {A B : Type} (f : A → B)
    (less : @LessFunc A) (less' : @LessFunc B) (s : list A) :
  (∀ x y, less' (f x) (f y) = less x y) →
  insertionSortLessFunc less' (f <$> s)
  = prod_map (fmap f) id (insertionSortLessFunc less s).
Proof. intros Hless. by apply (insertionSort_outer_fmap f less less' s Hless []). Qed.

Lemma insertionSort_inner_returns {A : Type} (less : @LessFunc A) (x : A)
    (before : list A) :
  (∀ x y, ∃ b, less x y = Ok b) →
  (insertionSort_inner less x before).2 = Done.
Proof.
  intros Hless. induction before as [|y before IH]; [done|].
  cbn [insertionSort_inner]. destruct (Hless x y) as [[|] ->]; [|done].
  by destruct (insertionSort_inner less x before).
Qed.

Lemma insertionSortLessFunc_returns {A : Type} (less : @LessFunc A)
    (s : list A) :
  (∀ x y, ∃ b, less x y = Ok b) →
  (insertionSortLessFunc less s).2 = Done.
Proof.
  intros Hless. unfold insertionSortLessFunc. generalize (@nil A).
  induction s as [|x s IH]; intros sorted; [done|].
  cbn [insertionSort_outer].
  pose proof (insertionSort_inner_returns less x sorted Hless) as Hin.
  destruct (insertionSort_inner less x sorted) as [sorted' st].
  simpl in Hin. subst st. apply IH.
Qed.

Context {T K : Type}.

(** A sorter that compares one field of its elements with a strict total
    order. *)
Lemma typed_sort_by_field
    (pdqsort : @LessFunc T → list T → list T * Status)
    (f : T → K) (lt : K → K → bool) (R : K → K → Prop) (s : list T) :
  sort_contract pdqsort →
  (∀ k, lt k k = false) →
  (∀ x y, lt x y = true → lt y x = false) →
  (∀ x y z, lt x y = true → lt y z = true → lt x z = true) →
  (∀ x y z, lt x y = false → lt y z = false → lt x z = false) →
  (∀ x y, lt y x = false → R x y) →
  ∃ out, sort_Slice pdqsort s (λ a b, Ok (lt (f a) (f b))) = (out, Done)
         ∧ out ≡ₚ s ∧ StronglySorted R (f <$> out).
Proof.
  intros Hc Hirr Hasym Htrans Hneg HR.
  destruct (sort_Slice_keyed pdqsort (Some ∘ f) (λ _, True) lt true
              (λ a b, Ok (lt (f a) (f b))) s)
    as (out & keys & Hout & Hperm & Hk & Hs); eauto.
  - by intros a b ka kb [= <-] [= <-].
  - apply Forall_forall. by eexists.
  - exists out. split; [done|]. split; [done|].
    apply fmap_Some_total in Hk as <-.
    eapply StronglySorted_weaken; [|done]. apply HR.
Qed.

End TypedSorterFacts.

(** X10.  Provided [sort.Slice] keeps its contract on long slices,
    [SortPersonByName] rearranges the people so that their names ascend in
    byte-lexicographic order, and [SortPersonByAge] so that their ages
    never decrease. *)
Theorem person_sorters_sort
    (pdqsort : @LessFunc PersonStruct → list PersonStruct
               → list PersonStruct * Status)
    (people : list PersonStruct) :
  sort_contract pdqsort →
  (∃ out, SortPersonByName pdqsort people = (out, Done)
          ∧ out ≡ₚ people ∧ StronglySorted bytes_le (Person_Name <$> out))
  ∧ (∃ out, SortPersonByAge pdqsort people = (out, Done)
            ∧ out ≡ₚ people ∧ StronglySorted Z.le (Person_Age <$> out)).
Proof.
  intros Hc. split.
  - apply (typed_sort_by_field pdqsort Person_Name string_lt bytes_le people Hc).
    + apply string_lt_irrefl.
    + apply string_lt_asym.
    + apply string_lt_trans.
    + apply string_lt_negtrans.
    + intros x y. apply string_lt_false_bytes_le.
  - apply (typed_sort_by_field pdqsort Person_Age int_lt Z.le people Hc).
    + apply int_lt_irrefl.
    + apply int_lt_asym.
    + apply int_lt_trans.
    + apply int_lt_negtrans.
    + unfold int_lt. intros x y. lia.
Qed.

Lemma person_sorters_sort_witness :
  sort_contract (@insertionSortLessFunc PersonStruct)
  ∧ ∃ out,
      SortPersonByAge insertionSortLessFunc
        [mkPerson "Charlie" 35; mkPerson "Alice" 30; mkPerson "Bob" 25]
      = (out, Done)
      ∧ out ≡ₚ [mkPerson "Charlie" 35; mkPerson "Alice" 30; mkPerson "Bob" 25]
      ∧ StronglySorted Z.le (Person_Age <$> out).
Proof.
  split; [apply insertionSortLessFunc_contract|].
  exact (proj2 (person_sorters_sort insertionSortLessFunc _
           insertionSortLessFunc_contract)).
Defined.

(** X11.  Provided [sort.Slice] keeps its contract on long slices,
    [SortProductByName] rearranges the products so that their names ascend
    in byte-lexicographic order; and when no price is NaN,
    [SortProductByPrice] rearranges them so that their prices never
    decrease. *)
Theorem product_sorters_sort
    (pdqsort : @LessFunc ProductStruct → list ProductStruct
               → list ProductStruct * Status)
    (products : list ProductStruct) :
  sort_contract pdqsort →
  (∃ out, SortProductByName pdqsort products = (out, Done)
          ∧ out ≡ₚ products
          ∧ StronglySorted bytes_le (Product_Name <$> out))
  ∧ (Forall (λ p, is_number (Product_Price p)) products →
     ∃ out, SortProductByPrice pdqsort products = (out, Done)
            ∧ out ≡ₚ products
            ∧ StronglySorted float_le (Product_Price <$> out)).
Proof.
  intros Hc. split.
  - apply (typed_sort_by_field pdqsort Product_Name string_lt bytes_le
             products Hc).
    + apply string_lt_irrefl.
    + apply string_lt_asym.
    + apply string_lt_trans.
    + apply string_lt_negtrans.
    + intros x y. apply string_lt_false_bytes_le.
  - intros Hnum.
    destruct (sort_Slice_keyed pdqsort
                (λ p, match Product_Price p with
                      | S754_nan => None
                      | f => Some f
                      end)
                is_number float_lt true
                (λ a b, Ok (float_lt (Product_Price a) (Product_Price b)))
                products)
      as (out & keys & Hout & Hperm & Hk & Hs); try done.
    + intros a k. by destruct (Product_Price a); intros [= <-].
    + intros a b ka kb.
      by destruct (Product_Price a), (Product_Price b);
        intros [= <-] [= <-].
    + intros. apply float_lt_irrefl.
    + intros. by apply float_lt_asym.
    + intros. by eapply float_lt_trans.
    + intros x y z ? ? ?. by apply float_lt_negtrans.
    + eapply Forall_impl; [done|]. intros p Hp. unfold is_number in Hp.
      by destruct (Product_Price p).
    + exists out. split; [done|]. split; [done|].
      apply (fmap_Some_weaken _ (Some ∘ Product_Price)) in Hk.
      * by apply fmap_Some_total in Hk as <-.
      * intros a k. unfold compose.
        destruct (Product_Price a); intros Heq; by simplify_eq.
Qed.

Lemma product_sorters_sort_witness :
  sort_contract (@insertionSortLessFunc ProductStruct)
  ∧ Forall (λ p, is_number (Product_Price p)) [Laptop; Mouse; Keyboard]
  ∧ ∃ out,
      SortProductByPrice insertionSortLessFunc [Laptop; Mouse; Keyboard]
      = (out, Done)
      ∧ out ≡ₚ [Laptop; Mouse; Keyboard]
      ∧ StronglySorted float_le (Product_Price <$> out).
Proof.
  assert (Hnum : Forall (λ p, is_number (Product_Price p))
            [Laptop; Mouse; Keyboard]) by by repeat constructor.
  split; [apply insertionSortLessFunc_contract|]. split; [exact Hnum|].
  exact (proj2 (product_sorters_sort insertionSortLessFunc _
           insertionSortLessFunc_contract) Hnum).
Defined.

(** X12.  On slices of at most [maxInsertion] elements the sorters that go
    through [reflect] do what the sorters written out for [Person] and
    [Product] do: sorting the people by ["Name"] or ["Age"], or the
    products by ["Name"] or ["Price"], in ascending order with the
    [SortBy...Field] functions returns [nil] and leaves the slice that the
    type-specific function leaves, NaN prices included. *)
Theorem reflection_sorters_agree_with_typed
    (pdqsort : @LessFunc Value → list Value → list Value * Status)
    (pdqsortPerson : @LessFunc PersonStruct → list PersonStruct
                     → list PersonStruct * Status)
    (pdqsortProduct : @LessFunc ProductStruct → list ProductStruct
                      → list ProductStruct * Status)
    (people : list PersonStruct) (products : list ProductStruct) :
  length people ≤ maxInsertion →
  length products ≤ maxInsertion →
  SortByStringField pdqsort (ValueOf_Person <$> people) "Name" true
  = (ValueOf_Person <$> (SortPersonByName pdqsortPerson people).1, Ok None)
  ∧ SortByIntField pdqsort (ValueOf_Person <$> people) "Age" true
    = (ValueOf_Person <$> (SortPersonByAge pdqsortPerson people).1, Ok None)
  ∧ SortByStringField pdqsort (ValueOf_Product <$> products) "Name" true
    = (ValueOf_Product <$> (SortProductByName pdqsortProduct products).1,
       Ok None)
  ∧ SortByFloatField pdqsort (ValueOf_Product <$> products) "Price" true
    = (ValueOf_Product <$> (SortProductByPrice pdqsortProduct products).1,
       Ok None).
Proof.
  intros Hpeople Hproducts.
  unfold SortByStringField, SortByIntField, SortByFloatField,
    SortPersonByName, SortPersonByAge, SortProductByName, SortProductByPrice.
  rewrite !sort_Slice_short by (by rewrite ?length_fmap).
  repeat split.
  - rewrite (insertionSortLessFunc_fmap ValueOf_Person
               (λ pi pj, Ok (string_lt (Person_Name pi) (Person_Name pj))))
      by done.
    match goal with |- context [insertionSortLessFunc ?less people] =>
      pose proof (insertionSortLessFunc_returns less people) as Hst;
      destruct (insertionSortLessFunc less people) as [out st] end.
    simpl in *. by rewrite Hst by eauto.
  - rewrite (insertionSortLessFunc_fmap ValueOf_Person
               (λ pi pj, Ok (int_lt (Person_Age pi) (Person_Age pj))))
      by done.
    match goal with |- context [insertionSortLessFunc ?less people] =>
      pose proof (insertionSortLessFunc_returns less people) as Hst;
      destruct (insertionSortLessFunc less people) as [out st] end.
    simpl in *. by rewrite Hst by eauto.
  - rewrite (insertionSortLessFunc_fmap ValueOf_Product
               (λ pi pj, Ok (string_lt (Product_Name pi) (Product_Name pj))))
      by done.
    match goal with |- context [insertionSortLessFunc ?less products] =>
      pose proof (insertionSortLessFunc_returns less products) as Hst;
      destruct (insertionSortLessFunc less products) as [out st] end.
    simpl in *. by rewrite Hst by eauto.
  - rewrite (insertionSortLessFunc_fmap ValueOf_Product
               (λ pi pj, Ok (float_lt (Product_Price pi) (Product_Price pj))))
      by done.
    match goal with |- context [insertionSortLessFunc ?less products] =>
      pose proof (insertionSortLessFunc_returns less products) as Hst;
      destruct (insertionSortLessFunc less products) as [out st] end.
    simpl in *. by rewrite Hst by eauto.
Qed.

Lemma reflection_sorters_agree_with_typed_witness :
  length [mkPerson "Charlie" 35; mkPerson "Alice" 30; mkPerson "Bob" 25]
    ≤ maxInsertion
  ∧ length [Laptop; Mouse; Keyboard] ≤ maxInsertion
  ∧ SortByIntField insertionSortLessFunc
      (ValueOf_Person <$>
         [mkPerson "Charlie" 35; mkPerson "Alice" 30; mkPerson "Bob" 25])
      "Age" true
    = (ValueOf_Person <$>
         (SortPersonByAge insertionSortLessFunc
            [mkPerson "Charlie" 35; mkPerson "Alice" 30; mkPerson "Bob" 25]).1,
       Ok None)
  ∧ SortByFloatField insertionSortLessFunc
      (ValueOf_Product <$> [Laptop; Mouse; Keyboard]) "Price" true
    = (ValueOf_Product <$>
         (SortProductByPrice insertionSortLessFunc
            [Laptop; Mouse; Keyboard]).1,
       Ok None).
Proof.
  assert (H1 : length [mkPerson "Charlie" 35; mkPerson "Alice" 30;
                       mkPerson "Bob" 25] ≤ maxInsertion)
    by (unfold maxInsertion; simpl; lia).
  assert (H2 : length [Laptop; Mouse; Keyboard] ≤ maxInsertion)
    by (unfold maxInsertion; simpl; lia).
  destruct (reflection_sorters_agree_with_typed insertionSortLessFunc
              insertionSortLessFunc insertionSortLessFunc _ _ H1 H2)
    as (_ & Hage & _ & Hprice).
  split; [exact H1|]. split; [exact H2|]. by split.
Defined.

(** ** Ties and sorted input on short slices *)

(** X13.  On a slice of at most [maxInsertion] structs with a string field
    [F] the sort by [F] is stable, ascending or descending: for every
    string, the records that hold it under [F] stand after
    [SortByStringField], or after [SortWithComparator] with the comparator
    of [NewStringSorter], in the order they stood in before. *)
Theorem short_slices_sorted_stably_by_string
    (pdqsort : @LessFunc Value → list Value → list Value * Status)
    (F : string) (ascending : bool) (s : list Value) (name : string) :
  Forall (has_field StringField F) s →
  length s ≤ maxInsertion →
  filter (λ a, string_key F a = Some name)
    (SortWithComparator pdqsort s (NewStringSorter F ascending)).1
  = filter (λ a, string_key F a = Some name) s
  ∧ filter (λ a, string_key F a = Some name)
      (SortByStringField pdqsort s F ascending).1
    = filter (λ a, string_key F a = Some name) s.
Proof.
  intros HP Hlen.
  assert (H : filter (λ a, string_key F a = Some name)
                (sort_Slice pdqsort s (NewStringSorter F ascending)).1
              = filter (λ a, string_key F a = Some name) s).
  { destruct (sort_Slice_short_stable pdqsort (has_field StringField F) s
                (NewStringSorter F ascending)
                (NewStringSorter_swo F ascending) HP Hlen)
      as (_ & _ & Hties).
    apply (keeps_ties_by_key (string_key F) string_lt ascending
             (NewStringSorter F ascending)); try done.
    - apply NewStringSorter_keys.
    - apply string_lt_irrefl.
    - apply string_lt_tie.
    - rewrite sort_Slice_short by done. apply insertionSortLessFunc_perm. }
  split; [done|].
  unfold SortByStringField.
  change (sort_Slice pdqsort s _)
    with (sort_Slice pdqsort s (NewStringSorter F ascending)).
  by destruct (sort_Slice pdqsort s (NewStringSorter F ascending))
    as [out [|e]].
Qed.

Lemma short_slices_sorted_stably_by_string_witness :
  Forall (has_field StringField "Name")
    [Person "Bob" 25; Person "Alice" 30; Person "Alice" 20]
  ∧ length [Person "Bob" 25; Person "Alice" 30; Person "Alice" 20]
    ≤ maxInsertion
  ∧ filter (λ a, string_key "Name" a = Some "Alice")
      (SortByStringField insertionSortLessFunc
         [Person "Bob" 25; Person "Alice" 30; Person "Alice" 20]
         "Name" false).1
    = filter (λ a, string_key "Name" a = Some "Alice")
        [Person "Bob" 25; Person "Alice" 30; Person "Alice" 20].
Proof.
  assert (HP : Forall (has_field StringField "Name")
            [Person "Bob" 25; Person "Alice" 30; Person "Alice" 20]).
  { repeat constructor; by eexists. }
  assert (Hlen : length [Person "Bob" 25; Person "Alice" 30; Person "Alice" 20]
                 ≤ maxInsertion) by (unfold maxInsertion; simpl; lia).
  split; [exact HP|]. split; [exact Hlen|].
  exact (proj2 (short_slices_sorted_stably_by_string insertionSortLessFunc
           "Name" false _ "Alice" HP Hlen)).
Defined.

Section SortedInputFacts.

Context {T : Type}.

(** Insertion sort compares each element first with the one before it;
    where that one is never the greater, no element moves. *)
Lemma insertionSort_outer_adjacent (less : @LessFunc T) (rest : list T) :
  ∀ sorted,
  (∀ i x y, (reverse sorted ++ rest) !! i = Some x →
            (reverse sorted ++ rest) !! S i = Some y → less y x = Ok false) →
  insertionSort_outer less sorted rest = (reverse sorted ++ rest, Done).
Proof.
  induction rest as [|x rest IH]; intros sorted Hadj;
    cbn [insertionSort_outer].
  - by rewrite app_nil_r.
  - assert (Hin : insertionSort_inner less x sorted = (x :: sorted, Done)).
    { destruct sorted as [|y sorted]; [done|]. cbn [insertionSort_inner].
      rewrite (Hadj (length sorted) y x); [done| |].
      - rewrite reverse_cons, <- app_assoc.
        rewrite lookup_app_r by (rewrite length_reverse; lia).
        by rewrite length_reverse, Nat.sub_diag.
      - rewrite reverse_cons, <- app_assoc.
        rewrite lookup_app_r by (rewrite length_reverse; lia).
        rewrite length_reverse.
        by replace (S (length sorted) - length sorted) with 1 by lia. }
    rewrite Hin, IH.
    + by rewrite reverse_cons, <- app_assoc.
    + by rewrite reverse_cons, <- app_assoc.
Qed.

End SortedInputFacts.

(** X14.  A slice of at most [maxInsertion] records in which no record is
    less, by the comparator, than the record just before it comes out of
    [SortWithComparator] as it went in: no record is moved.  Nothing is
    asked of the comparator on records that are not neighbours, nor that
    it be an order. *)
Theorem sorted_input_is_left_alone
    (pdqsort : @LessFunc Value → list Value → list Value * Status)
    (s : list Value) (comparator : Comparator) :
  (∀ i x y, s !! i = Some x → s !! S i = Some y → comparator y x = Ok false) →
  length s ≤ maxInsertion →
  SortWithComparator pdqsort s comparator = (s, Done).
Proof.
  intros Hadj Hlen. unfold SortWithComparator.
  rewrite sort_Slice_short by done.
  change (λ si sj : Value, comparator si sj) with comparator.
  apply (insertionSort_outer_adjacent comparator s []). done.
Qed.

(** Products at 1, NaN and 0, by price: no product is less than the one
    just before it, although the last is less than the first, and the
    slice is left as it is. *)
Lemma sorted_input_is_left_alone_witness :
  let s := ValueOf_Product <$>
             [mkProduct "a" (S754_finite false 4503599627370496 (-52));
              mkProduct "b" S754_nan; mkProduct "c" (S754_zero false)] in
  (∀ i x y, s !! i = Some x → s !! S i = Some y →
            NewGenericSorter "Price" true y x = Ok false)
  ∧ length s ≤ maxInsertion
  ∧ SortWithComparator insertionSortLessFunc s (NewGenericSorter "Price" true)
    = (s, Done).
Proof.
  intros s.
  assert (Hadj : ∀ i x y, s !! i = Some x → s !! S i = Some y →
            NewGenericSorter "Price" true y x = Ok false).
  { intros [|[|[|i]]] x y Hx Hy; simpl in Hx, Hy; simplify_eq;
      reflexivity. }
  assert (Hlen : length s ≤ maxInsertion) by (unfold maxInsertion; simpl; lia).
  split; [exact Hadj|]. split; [exact Hlen|].
  exact (sorted_input_is_left_alone insertionSortLessFunc s
           (NewGenericSorter "Price" true) Hadj Hlen).
Defined.

(** X15.  Where the field of the first operand is of a kind that a
    specialised factory is for, the comparator of [NewGenericSorter] is
    that factory's comparator: on a string it answers, or panics, as the
    comparator of [NewStringSorter] does, on an integer as the comparator
    of [NewIntSorter] does, whatever the second operand. *)
Theorem generic_sorter_dispatch (F : string) (ascending : bool)
    (a b fieldA : Value) :
  reflect.FieldByName a F = Ok fieldA →
  (reflect.Kind fieldA = String_ →
     NewGenericSorter F ascending a b = NewStringSorter F ascending a b)
  ∧ (∀ i, reflect.Int fieldA = Ok i →
       NewGenericSorter F ascending a b = NewIntSorter F ascending a b).
Proof.
  intros Ha. unfold NewGenericSorter, NewStringSorter, NewIntSorter.
  rewrite Ha. cbn [mbind Result_bind].
  destruct (reflect.FieldByName b F) as [fieldB|e]; [|done].
  split.
  - intros Hk. by rewrite Hk.
  - intros i Hi. destruct fieldA as [| |[]| | | | |]; done.
Qed.

Lemma generic_sorter_dispatch_witness :
  reflect.FieldByName (Person "Alice" 30) "Age" = Ok (VInt KInt "int" 30)
  ∧ NewGenericSorter "Age" false (Person "Alice" 30) (Person "Bob" 25)
    = NewIntSorter "Age" false (Person "Alice" 30) (Person "Bob" 25).
Proof.
  split; [reflexivity|].
  exact (proj2 (generic_sorter_dispatch "Age" false (Person "Alice" 30)
                  (Person "Bob" 25) (VInt KInt "int" 30) eq_refl)
           30%Z eq_refl).
Defined.

(** ** Two lists in one heap, and loops that stop early *)

Section ListFrameFacts.

Context {T : Type}.
Implicit Types (h : heap T) (lst : List) (ls : list loc) (vs : list T).

Lemma Push_is_list_in h lst ls vs v :
  is_list_in h lst ls vs →
  is_list_in (Push (h, lst) v).1 (Push (h, lst) v).2
    (ls ++ [fresh (dom h)]) (vs ++ [v]).
Proof.
  intros (Hnd & Hc & Htl). unfold Push, new_element.
  pose proof (is_fresh (dom h)) as Hfresh.
  set (l := fresh (dom h)) in *.
  assert (Hl : l ∉ ls) by (intros Hin; apply Hfresh; by eapply chain_dom).
  destruct (tail lst) as [t|] eqn:Ht; simpl.
  - split; [|split].
    + apply NoDup_app. split; [done|]. split; [|apply NoDup_singleton].
      intros x Hx ->%list_elem_of_singleton. done.
    + apply chain_snoc; try done.
      * apply chain_frame with h; [|done].
        intros l' Hl'. rewrite lookup_insert_ne; [done|]. by intros ->.
      * by rewrite lookup_insert_eq.
    + by rewrite last_snoc.
  - symmetry in Htl. apply last_None in Htl. subst ls.
    destruct vs; [|done]. simpl in Hc.
    split; [apply NoDup_singleton|]. split; [|done].
    simpl. split; [done|]. exists None. by rewrite lookup_insert_eq.
Qed.

(** A push onto one list leaves the cells of another list alone. *)
Lemma Push_frame h lst ls vs lst' ls' vs' v :
  is_list_in h lst ls vs → is_list_in h lst' ls' vs' → ls ## ls' →
  is_list_in (Push (h, lst) v).1 lst' ls' vs'
  ∧ (ls ++ [fresh (dom h)]) ## ls'.
Proof.
  intros (Hnd & Hc & Htl) (Hnd' & Hc' & Htl') Hdisj.
  pose proof (is_fresh (dom h)) as Hfresh.
  assert (Hl' : fresh (dom h) ∉ ls')
    by (intros Hin; apply Hfresh; by eapply chain_dom).
  split.
  - split; [done|]. split; [|done].
    apply chain_frame with h; [|done]. intros l Hl.
    unfold Push, new_element. destruct (tail lst) as [t|] eqn:Ht; simpl.
    + rewrite lookup_alter_ne, lookup_insert_ne; [done|by intros <-|].
      intros <-. apply (Hdisj t); [|done].
      apply last_Some_elem_of. by rewrite <- Htl.
    + rewrite lookup_insert_ne; [done|by intros <-].
  - intros x [Hx|Hx]%elem_of_app Hx'.
    + by apply (Hdisj x).
    + apply list_elem_of_singleton in Hx. by subst x.
Qed.

Lemma is_list_in_AllElements h lst ls vs :
  is_list_in h lst ls vs → AllElements h lst = Some vs.
Proof.
  intros (Hnd & Hc & _). pose proof (chain_bound _ _ _ _ Hnd Hc).
  unfold AllElements.
  rewrite (chain_AllElements_loop _ ls _ vs); [done|done|lia].
Qed.

Lemma is_list_in_Collect h lst ls vs :
  is_list_in h lst ls vs → Collect (All h lst) = Some vs.
Proof.
  intros (Hnd & Hc & _). pose proof (chain_bound _ _ _ _ Hnd Hc).
  unfold Collect, All.
  rewrite (chain_All_loop _ ls _ _ vs); [|done|lia].
  by rewrite range_slice_collect.
Qed.

Lemma push_either_lists (ops : list (bool * T)) :
  ∀ h l1 l2 ls1 ls2 vs1 vs2,
  is_list_in h l1 ls1 vs1 → is_list_in h l2 ls2 vs2 → ls1 ## ls2 →
  ∃ ls1' ls2',
    is_list_in (foldl push_either (h, l1, l2) ops).1.1
      (foldl push_either (h, l1, l2) ops).1.2 ls1'
      (vs1 ++ (filter (λ op, op.1 = true) ops).*2)
    ∧ is_list_in (foldl push_either (h, l1, l2) ops).1.1
        (foldl push_either (h, l1, l2) ops).2 ls2'
        (vs2 ++ (filter (λ op, op.1 = false) ops).*2)
    ∧ ls1' ## ls2'.
Proof.
  induction ops as [|[[|] v] ops IH]; intros h l1 l2 ls1 ls2 vs1 vs2 H1 H2 Hd.
  - exists ls1, ls2. cbn. by rewrite !app_nil_r.
  - cbn [foldl push_either].
    pose proof (Push_is_list_in h l1 ls1 vs1 v H1) as H1'.
    destruct (Push_frame h l1 ls1 vs1 l2 ls2 vs2 v H1 H2 Hd) as [H2' Hd'].
    destruct (Push (h, l1) v) as [h' l1'].
    destruct (IH h' l1' l2 _ _ _ _ H1' H2' Hd') as (ls1' & ls2' & Ha & Hb & Hc).
    exists ls1', ls2'.
    rewrite filter_cons_True by done. rewrite filter_cons_False by done.
    rewrite <- app_assoc in Ha. done.
  - cbn [foldl push_either].
    pose proof (Push_is_list_in h l2 ls2 vs2 v H2) as H2'.
    destruct (Push_frame h l2 ls2 vs2 l1 ls1 vs1 v H2 H1) as [H1' Hd'];
      [intros x ? ?; by apply (Hd x)|].
    destruct (Push (h, l2) v) as [h' l2'].
    destruct (IH h' l1 l2' _ _ _ _ H1' H2') as (ls1' & ls2' & Ha & Hb & Hc);
      [intros x ? ?; by apply (Hd' x)|].
    exists ls1', ls2'.
    rewrite filter_cons_False by done. rewrite filter_cons_True by done.
    rewrite <- app_assoc in Hb. done.
Qed.

End ListFrameFacts.

(** X16.  Lists do not share cells.  Start two empty lists in one heap and
    push values onto one or the other, in any interleaving: [AllElements]
    of each list returns the values that were pushed onto that list, in
    the order of the pushes, and collecting [All] of each list gives the
    same. *)
Theorem interleaved_pushes_keep_lists_apart {T : Type} (h : heap T)
    (ops : list (bool * T)) :
  let st := foldl push_either (h, emptyList, emptyList) ops in
  let first := (filter (λ op, op.1 = true) ops).*2 in
  let second := (filter (λ op, op.1 = false) ops).*2 in
  AllElements st.1.1 st.1.2 = Some first
  ∧ AllElements st.1.1 st.2 = Some second
  ∧ Collect (All st.1.1 st.1.2) = Some first
  ∧ Collect (All st.1.1 st.2) = Some second.
Proof.
  intros st first second.
  assert (He : is_list_in h emptyList [] []) by (split; [constructor|done]).
  destruct (push_either_lists ops h emptyList emptyList [] [] [] [] He He)
    as (ls1 & ls2 & H1 & H2 & _); [by intros x ?%elem_of_nil|].
  cbn [app] in H1, H2. fold st in H1, H2.
  repeat split.
  - by eapply is_list_in_AllElements.
  - by eapply is_list_in_AllElements.
  - by eapply is_list_in_Collect.
  - by eapply is_list_in_Collect.
Qed.

(** ** Channels *)

Section ChannelFacts.

Implicit Types (σ : chans) (c pings pongs : loc) (msg : string).

Lemma chan_send_room σ c cap buf msg :
  σ !! c = Some (mkChan cap buf) → length buf < cap →
  chan_send σ c msg = Some (<[c := mkChan cap (buf ++ [msg])]> σ).
Proof.
  intros Hc Hroom. unfold chan_send. rewrite Hc. cbn.
  by rewrite decide_True by done.
Qed.

Lemma chan_recv_first σ c cap first rest :
  σ !! c = Some (mkChan cap (first :: rest)) →
  chan_recv σ c = Some (first, <[c := mkChan cap rest]> σ).
Proof. intros Hc. unfold chan_recv. by rewrite Hc. Qed.

End ChannelFacts.

(** X17.  [ping] followed by [pong] moves one message from the channel
    [pings] to the other channel [pongs], first in first out: where both
    have room, [pings] ends with what it held and [msg] behind it less the
    oldest message, [pongs] ends with that oldest message behind what it
    held, neither call blocks, and no other channel changes. *)
Theorem ping_pong_first_in_first_out (σ : chans) (pings pongs : loc)
    (msg : string) (capi capo : nat) (held waiting : list string) :
  pings ≠ pongs →
  σ !! pings = Some (mkChan capi held) → length held < capi →
  σ !! pongs = Some (mkChan capo waiting) → length waiting < capo →
  ∃ oldest rest σ',
    held ++ [msg] = oldest :: rest
    ∧ (σ1 ← ping σ pings msg; pong σ1 pings pongs) = Some σ'
    ∧ σ' !! pings = Some (mkChan capi rest)
    ∧ σ' !! pongs = Some (mkChan capo (waiting ++ [oldest]))
    ∧ ∀ c, c ≠ pings → c ≠ pongs → σ' !! c = σ !! c.
Proof.
  intros Hne Hi Hroomi Ho Hroomo.
  assert (∃ oldest rest, held ++ [msg] = oldest :: rest) as (oldest & rest & Hq).
  { destruct held; cbn; eauto. }
  exists oldest, rest. eexists. split; [done|].
  unfold ping, pong. rewrite (chan_send_room _ _ _ _ _ Hi Hroomi). cbn.
  rewrite Hq. erewrite chan_recv_first; [|by rewrite lookup_insert_eq]. cbn.
  erewrite chan_send_room;
    [|by rewrite !lookup_insert_ne by done|done].
  split; [done|]. split; [|split].
  - rewrite lookup_insert_ne by done. by rewrite lookup_insert_eq.
  - by rewrite lookup_insert_eq.
  - intros c ? ?. by rewrite !lookup_insert_ne by done.
Qed.

Lemma ping_pong_first_in_first_out_witness :
  ∃ oldest rest σ',
    ["a"] ++ ["b"] = oldest :: rest
    ∧ (σ1 ← ping (<[1%positive := mkChan 2 ["a"]]>
                    (<[2%positive := mkChan 1 []]> ∅)) 1%positive "b";
       pong σ1 1%positive 2%positive) = Some σ'
    ∧ σ' !! 1%positive = Some (mkChan 2 rest)
    ∧ σ' !! 2%positive = Some (mkChan 1 ([] ++ [oldest]))
    ∧ ∀ c, c ≠ 1%positive → c ≠ 2%positive →
        σ' !! c = (<[1%positive := mkChan 2 ["a"]]>
                     (<[2%positive := mkChan 1 []]> ∅) : chans) !! c.
Proof.
  apply (ping_pong_first_in_first_out
           (<[1%positive := mkChan 2 ["a"]]> (<[2%positive := mkChan 1 []]> ∅))
           1%positive 2%positive "b" 2 1 ["a"] []);
    [done | reflexivity | simpl; lia | reflexivity | simpl; lia].
Defined.

(** X18.  The exchange of [main]: on channels that are empty and have room
    for one message, [ping], then [pong], then a receive from [pongs]
    deliver the message that was passed to [ping], no step blocks, and the
    channels are left as they were; this holds also when [pings] and
    [pongs] are one and the same channel. *)
Theorem ping_pong_delivers (σ : chans) (pings pongs : loc) (msg : string)
    (capi capo : nat) :
  σ !! pings = Some (mkChan capi []) → 0 < capi →
  σ !! pongs = Some (mkChan capo []) → 0 < capo →
  (σ1 ← ping σ pings msg; σ2 ← pong σ1 pings pongs; chan_recv σ2 pongs)
  = Some (msg, σ).
Proof.
  intros Hi Hroomi Ho Hroomo.
  unfold ping, pong. rewrite (chan_send_room _ _ _ _ _ Hi Hroomi). cbn.
  erewrite chan_recv_first; [|by rewrite lookup_insert_eq]. cbn.
  rewrite insert_insert_eq.
  destruct (decide (pings = pongs)) as [<-|Hne].
  - assert (capo = capi) as -> by congruence.
    erewrite chan_send_room; [|by rewrite lookup_insert_eq|done]. cbn.
    erewrite chan_recv_first; [|by rewrite lookup_insert_eq].
    by rewrite !insert_insert_eq, insert_id.
  - erewrite chan_send_room; [|by rewrite lookup_insert_ne|done]. cbn.
    erewrite chan_recv_first; [|by rewrite lookup_insert_eq].
    rewrite insert_insert_eq. rewrite (insert_id (<[pings:=_]> σ) pongs).
    + by rewrite insert_id.
    + by rewrite lookup_insert_ne.
Qed.

Lemma ping_pong_delivers_witness :
  (σ1 ← ping (<[1%positive := mkChan 1 []]>
                (<[2%positive := mkChan 1 []]> ∅)) 1%positive "passed message";
   σ2 ← pong σ1 1%positive 2%positive; chan_recv σ2 2%positive)
  = Some ("passed message",
          <[1%positive := mkChan 1 []]> (<[2%positive := mkChan 1 []]> ∅)).
Proof.
  apply (ping_pong_delivers
           (<[1%positive := mkChan 1 []]> (<[2%positive := mkChan 1 []]> ∅))
           1%positive 2%positive "passed message" 1 1);
    [reflexivity | lia | reflexivity | lia].
Defined.
